(** * Check, Please: the checklist core (src/checklist.ts, src/completers.ts)

    A shallow embedding of the step model, the dependency-graph engine
    ([checkStepIDs], [nextLevel], [calculateLevels], [cycles], [nextSteps]),
    the execution-context builder and the step completers, with the
    properties stated in the specification. *)

From Stdlib Require Import String Ascii List Bool Arith Lia ZArith.
From Stdlib Require Import Relations.Relation_Operators Relations.Operators_Properties.
From Stdlib Require Import Sorting.Sorted Sorting.Permutation.
From stdpp Require Import base gmap strings list pretty.

Import ListNotations.
Open Scope string_scope.

(* ================================================================== *)
(** ** Plain JavaScript objects used as maps *)

(** The source keeps its maps in object literals ([{}]).  A read [o[k]]
    returns the own property [k] when there is one; otherwise it follows the
    prototype chain to [Object.prototype], whose properties are the names
    below (ECMAScript 2023, with Annex B).  All of them are truthy: the
    accessor [__proto__] yields [Object.prototype] itself, the others are
    functions. *)
Definition object_prototype_props : list string :=
  [ "constructor"; "__defineGetter__"; "__defineSetter__"; "hasOwnProperty";
    "__lookupGetter__"; "__lookupSetter__"; "isPrototypeOf";
    "propertyIsEnumerable"; "toString"; "valueOf"; "__proto__";
    "toLocaleString" ].

Definition is_proto_prop (k : string) : bool :=
  existsb (String.eqb k) object_prototype_props.

(** The result of a property read on a plain object. *)
Inductive jsval (V : Type) : Type :=
| JOwn (v : V)             (* an own property *)
| JInherited (name : string) (* the value of [Object.prototype[name]] *)
| JUndef.                  (* [undefined] *)
Arguments JOwn {V} v.
Arguments JInherited {V} name.
Arguments JUndef {V}.

(** [o[k]] for an object literal whose own properties are [m]. *)
Definition js_get {V} (m : gmap string V) (k : string) : jsval V :=
  match m !! k with
  | Some v => JOwn v
  | None => if is_proto_prop k then JInherited k else JUndef
  end.

Definition js_is_undefined {V} (r : jsval V) : bool :=
  match r with JUndef => true | _ => false end.

(** [o[k] = v].  The key ["__proto__"] is the inherited accessor: the
    assignment replaces the object's prototype and adds no own property.
    The model keeps the own properties only (it does not follow later reads
    through the replaced prototype); every key written by the functions
    below that could be ["__proto__"] is a step ID, and [checkStepIDs]
    rejects that step ID. *)
Definition js_set {V} (m : gmap string V) (k : string) (v : V) : gmap string V :=
  if String.eqb k "__proto__" then m else <[k := v]> m.

(* ================================================================== *)
(** ** The step model (src/checklist.ts) *)

(** Values typed [any] in the source (a manual input, a call output). *)
Inductive anyval : Type :=
| AStr (s : string)
| ANum (z : Z)
| ABool (b : bool)
| ANull.

(** [AbiFunctionFragment] is only passed to web3 by the code; it is kept
    abstract as the text of the fragment. *)
Definition AbiFunctionFragment := string.

Record BaseStep := mkBase {
  executor : string;
  stepID : string;
  description : option string;
  dependsOn : list string
}.

Record InputStep := mkInput {
  in_base : BaseStep;
  in_value : option anyval
}.

Record ViewStep := mkView {
  view_base : BaseStep;
  view_chainID : string;
  view_to : string;
  view_methodABI : AbiFunctionFragment;
  view_params : list string;
  view_output : option anyval;
  view_blockNumber : option string;
  view_blockHash : option string
}.

Record RawStep := mkRaw {
  raw_base : BaseStep;
  raw_chainID : string;
  raw_to : string;
  raw_calldata : string;
  raw_value : option string;
  raw_methodABI : option AbiFunctionFragment;
  raw_txHash : option string;
  raw_success : option bool
}.

Record MethodStep := mkMethod {
  method_base : BaseStep;
  method_chainID : string;
  method_to : string;
  method_methodABI : AbiFunctionFragment;
  method_params : list string;
  method_value : option string;
  method_txHash : option string;
  method_success : option bool;
  method_output : option anyval
}.

(** [type Step = InputStep | ViewStep | RawStep | MethodStep], tagged by
    [stepType]: "manual", "view", "raw", "method". *)
Inductive Step : Type :=
| Manual (s : InputStep)
| View (s : ViewStep)
| Raw (s : RawStep)
| Method (s : MethodStep).

Definition base_of (s : Step) : BaseStep :=
  match s with
  | Manual x => in_base x
  | View x => view_base x
  | Raw x => raw_base x
  | Method x => method_base x
  end.

Definition sid (s : Step) : string := stepID (base_of s).
Definition deps (s : Step) : list string := dependsOn (base_of s).

Definition isStepComplete (step : Step) : bool :=
  match step with
  | Manual x => if in_value x then true else false
  | View x => if view_output x then true else false
  | Raw x => if raw_txHash x then true else false
  | Method x => if method_txHash x then true else false
  end.

Record Checklist := mkChecklist {
  requester : string;
  cl_description : option string;
  steps : list Step;
  complete : option bool
}.

Record StepResult := mkResult {
  success : option bool;
  value : option anyval;
  executing : option bool
}.

Definition ExecutionContext := gmap string StepResult.

(* ================================================================== *)
(** ** Validation: [checkStepIDs] *)

(** The first loop: [if (stepIDs[step.stepID]) return false;
    stepIDs[step.stepID] = true;].  [None] is the early [return false]. *)
Fixpoint checkUnique (stepIDs : gmap string bool) (l : list Step)
  : option (gmap string bool) :=
  match l with
  | [] => Some stepIDs
  | step :: rest =>
      let seen := match js_get stepIDs (sid step) with
                  | JOwn b => b
                  | JInherited _ => true
                  | JUndef => false
                  end in
      if seen then None
      else checkUnique (js_set stepIDs (sid step) true) rest
  end.

Definition checkStepIDs (checklist : Checklist) : bool :=
  match checkUnique ∅ (steps checklist) with
  | None => false
  | Some stepIDs =>
      forallb (fun step =>
        forallb (fun dependencyID =>
          negb (js_is_undefined (js_get stepIDs dependencyID)))
          (deps step))
        (steps checklist)
  end.

(* ================================================================== *)
(** ** Leveling: [nextLevel], [calculateLevels], [cycles] *)

Definition levels_t := gmap string nat.

(** [levels[step.stepID] === undefined] *)
Definition unlevelled (levels : gmap string nat) (step : Step) : bool :=
  js_is_undefined (js_get levels (sid step)).

(** [!!levels[dependencyID]]: a level is a number, truthy unless 0. *)
Definition levelTruthy (levels : gmap string nat) (d : string) : bool :=
  match js_get levels d with
  | JOwn n => negb (Nat.eqb n 0)
  | JInherited _ => true
  | JUndef => false
  end.

Definition nextLevel (steps : list Step) (levels : gmap string nat) : list Step :=
  List.filter (fun step => unlevelled levels step
                      && forallb (levelTruthy levels) (deps step)) steps.

(** [for (let step of levelSteps) levels[step.stepID] = currentLevel;] *)
Definition assignLevel (cur : nat) (levelSteps : list Step)
    (levels : gmap string nat) : gmap string nat :=
  fold_left (fun m step => js_set m (sid step) cur) levelSteps levels.

(** The recursion of [calculateLevels]; the [levels] object it mutates is
    threaded through and returned.  Each recursive call removes at least
    one step from [steps], so [S (length steps)] rounds of fuel always
    reach the [levelSteps.length === 0] exit (lemma
    [calculateLevels_fixpoint] below). *)
Fixpoint calculateLevels_fuel (fuel : nat) (steps : list Step) (currentLevel : nat)
    (levels : gmap string nat) : gmap string nat :=
  match fuel with
  | 0 => levels
  | S fuel' =>
      match nextLevel steps levels with
      | [] => levels
      | levelSteps =>
          let levels' := assignLevel currentLevel levelSteps levels in
          calculateLevels_fuel fuel' (List.filter (unlevelled levels') steps)
            (S currentLevel) levels'
      end
  end.

Definition calculateLevels (steps : list Step) (currentLevel : nat)
    (levels : gmap string nat) : gmap string nat :=
  calculateLevels_fuel (S (length steps)) steps currentLevel levels.

Definition cycles (steps : list Step) : list Step :=
  let levels := calculateLevels steps 1 ∅ in
  List.filter (unlevelled levels) steps.

(* ================================================================== *)
(** ** Readiness: [nextSteps] *)

(** The comparator passed to [steps.sort]: [-1] when
    [levels[a.stepID] < levels[b.stepID]], [1] when [>], [0] otherwise
    (both comparisons are false when a level is missing). *)
Definition levelCompare (levels : gmap string nat) (a b : Step) : comparison :=
  match js_get levels (sid a), js_get levels (sid b) with
  | JOwn la, JOwn lb => Nat.compare la lb
  | _, _ => Eq
  end.

(** [Array.prototype.sort] is stable (ECMAScript 2019).  For a comparator
    that is a consistent total preorder, as [levelCompare] is when every
    step has a level, all stable sorts return the same sequence; insertion
    sort is used here.  With missing levels the comparator is inconsistent
    and the engine's order is implementation-defined. *)
Fixpoint insertStable {A} (cmp : A -> A -> comparison) (x : A) (l : list A) : list A :=
  match l with
  | [] => [x]
  | y :: l' => match cmp y x with
               | Gt => x :: y :: l'
               | _ => y :: insertStable cmp x l'
               end
  end.

Definition sortStable {A} (cmp : A -> A -> comparison) (l : list A) : list A :=
  fold_left (fun acc x => insertStable cmp x acc) l [].

(** An element of a [transitiveDependencies] array: a dependency ID, or
    the non-array value [Object.prototype[name]] that [concat] appends
    as one element when [transitiveDependencies[dependency]] is inherited. *)
Inductive tdep : Type :=
| TKey (k : string)
| TObj (name : string).

(** [String(Object.prototype[name])], the property key used when such a
    value indexes an object: [Object.prototype.toString] gives
    ["[object Object]"]; a built-in function prints as native code. *)
Definition protoValueString (name : string) : string :=
  if String.eqb name "__proto__" then "[object Object]"
  else if String.eqb name "constructor" then "function Object() { [native code] }"
  else "function " ++ name ++ "() { [native code] }".

Definition tdepKey (d : tdep) : string :=
  match d with
  | TKey k => k
  | TObj name => protoValueString name
  end.

(** [transitiveDependencies[dependency] || []] *)
Definition tdLookup (td : gmap string (list tdep)) (dependency : string) : list tdep :=
  match js_get td dependency with
  | JOwn l => l
  | JInherited name => [TObj name]
  | JUndef => []
  end.

(** The body of the second loop of [nextSteps] for one step:
    [td[id] = [...step.dependsOn];
     for (dependency of step.dependsOn) td[id] = td[id].concat(td[dependency] || []);] *)
Definition tdStep (td : gmap string (list tdep)) (step : Step) : gmap string (list tdep) :=
  fold_left
    (fun td' dependency =>
       js_set td' (sid step)
         (default [] (td' !! sid step) ++ tdLookup td' dependency)%list)
    (deps step)
    (js_set td (sid step) (map TKey (deps step))).

(** [!completeSteps[dependencyID]] negated *)
Definition depComplete (completeSteps : gmap string Step) (d : tdep) : bool :=
  negb (js_is_undefined (js_get completeSteps (tdepKey d))).

(** [nextSteps].  The final loop reads [transitiveDependencies[step.stepID]]
    as an own property, which it is for every stepID other than
    ["__proto__"]; a step with that ID (rejected by [checkStepIDs]) makes
    the source iterate over [Object.prototype] and throw, and is outside
    this model. *)
Definition nextSteps (checklist : Checklist) : list Step :=
  let levels := calculateLevels (steps checklist) 1 ∅ in
  let sorted := sortStable (levelCompare levels) (steps checklist) in
  let completeSteps :=
    fold_left (fun m step => if isStepComplete step then js_set m (sid step) step else m)
      sorted ∅ in
  let incompleteSteps := List.filter (fun step => negb (isStepComplete step)) sorted in
  let transitiveDependencies := fold_left tdStep sorted ∅ in
  List.filter (fun step =>
            forallb (depComplete completeSteps)
              (default [] (transitiveDependencies !! sid step)))
    incompleteSteps.

(* ================================================================== *)
(** ** The execution context: [generateExecutionContext] *)

(** The [StepResult] written for a complete step. *)
Definition stepResultOf (step : Step) : StepResult :=
  match step with
  | Manual x => mkResult (Some true) (in_value x) (Some false)
  | View x => mkResult (Some true) (view_output x) (Some false)
  | Raw x => mkResult (Some (default false (raw_success x)))
                      (option_map AStr (raw_txHash x)) (Some false)
  | Method x => mkResult (Some (default false (method_success x)))
                         (method_output x) (Some false)
  end.

Definition generateExecutionContext (checklist : Checklist) : ExecutionContext :=
  fold_left (fun context step => js_set context (sid step) (stepResultOf step))
    (List.filter isStepComplete (steps checklist)) ∅.


(* ================================================================== *)
(** ** Parameter templates: the Handlebars fragment the completers use *)

(** The completers run [Handlebars.compile(param)(executionContext)] with
    the library's defaults (non-strict mode, prototype access denied).  The
    model covers templates made of text and mustaches [{{id}}] or
    [{{id.field}}] whose path segments start with a letter, [_] or [$] and
    continue with letters, digits, [_], [$] or [-]; a template outside this
    fragment (block helpers, comments, escapes, triple mustaches, deeper
    paths, ...) is reported as unmodelled ([None]); so is a template with a
    NUL character in its text, on which the Handlebars lexer (whose text
    rules match [[^\x00]]) throws a lexical error. *)
Inductive hbSeg : Type :=
| HText (s : string)
| HPath (path : list string).

Definition is_alpha (c : ascii) : bool :=
  let n := nat_of_ascii c in (Nat.leb 65 n && Nat.leb n 90) || (Nat.leb 97 n && Nat.leb n 122).
Definition is_digit (c : ascii) : bool :=
  let n := nat_of_ascii c in Nat.leb 48 n && Nat.leb n 57.
Definition hb_start_char (c : ascii) : bool :=
  is_alpha c || Ascii.eqb c "_" || Ascii.eqb c "$".
Definition hb_ident_char (c : ascii) : bool :=
  hb_start_char c || is_digit c || Ascii.eqb c "-".

(** Keywords and literals of the Handlebars grammar. *)
Definition hb_reserved : list string := ["true"; "false"; "null"; "undefined"; "this"; "else"].

(** The built-in helpers: a single-segment mustache naming one calls it. *)
Definition hb_builtin_helpers : list string :=
  ["blockHelperMissing"; "each"; "helperMissing"; "if"; "unless"; "log"; "lookup"; "with"].

Definition hb_segment_ok (seg : list ascii) : bool :=
  match seg with
  | [] => false
  | c :: cs => hb_start_char c && forallb hb_ident_char cs
               && negb (existsb (String.eqb (string_of_list_ascii seg)) hb_reserved)
  end.

Fixpoint split_dots (cs : list ascii) (cur : list ascii) : list (list ascii) :=
  match cs with
  | [] => [rev cur]
  | c :: rest => if Ascii.eqb c "." then rev cur :: split_dots rest []
                 else split_dots rest (c :: cur)
  end.

Definition is_space (c : ascii) : bool := Ascii.eqb c " ".

Fixpoint drop_spaces (l : list ascii) : list ascii :=
  match l with
  | c :: rest => if is_space c then drop_spaces rest else l
  | [] => []
  end.

(** Whitespace around the path inside [{{ }}] is ignored. *)
Definition trim_spaces (cs : list ascii) : list ascii :=
  rev (drop_spaces (rev (drop_spaces cs))).

(** The expression between [{{] and [}}]. *)
Definition hb_path_of (inner : list ascii) : option (list string) :=
  let segs := split_dots (trim_spaces inner) [] in
  if forallb hb_segment_ok segs && Nat.leb (length segs) 2 then
    match segs with
    | [seg] => if existsb (String.eqb (string_of_list_ascii seg)) hb_builtin_helpers
               then None else Some [string_of_list_ascii seg]
    | _ => Some (map string_of_list_ascii segs)
    end
  else None.

(** Reads up to the closing [}}]: the expression and the rest. *)
Fixpoint hb_read_mustache (cs : list ascii) (acc : list ascii)
  : option (list ascii * list ascii) :=
  match cs with
  | [] => None
  | c :: rest =>
      match rest with
      | d :: rest' => if Ascii.eqb c "}" && Ascii.eqb d "}" then Some (rev acc, rest')
                      else hb_read_mustache rest (c :: acc)
      | [] => None
      end
  end.

Definition text_seg (acc : list ascii) : list hbSeg :=
  match acc with [] => [] | _ => [HText (string_of_list_ascii (rev acc))] end.

(** The template parser ([Handlebars.compile]), with fuel [length cs]:
    every round consumes at least one character.  A backslash (an escape)
    or a NUL character (a lexical error) in the text gives [None]. *)
Fixpoint hb_parse_fuel (fuel : nat) (cs : list ascii) (acc : list ascii)
  : option (list hbSeg) :=
  match fuel with
  | 0 => None
  | S fuel' =>
      match cs with
      | [] => Some (text_seg acc)
      | c :: rest =>
          if Ascii.eqb c "\" || Ascii.eqb c "000"%char then None
          else match rest with
               | d :: rest' =>
                   if Ascii.eqb c "{" && Ascii.eqb d "{" then
                     match hb_read_mustache rest' [] with
                     | Some (inner, after) =>
                         match hb_path_of inner with
                         | Some p =>
                             match hb_parse_fuel fuel' after [] with
                             | Some segs => Some (text_seg acc ++ HPath p :: segs)%list
                             | None => None
                             end
                         | None => None
                         end
                     | None => None
                     end
                   else hb_parse_fuel fuel' rest (c :: acc)
               | [] => hb_parse_fuel fuel' rest (c :: acc)
               end
      end
  end.

Definition hb_compile (template : string) : option (list hbSeg) :=
  let cs := list_ascii_of_string template in
  hb_parse_fuel (S (length cs)) cs [].

(** [Handlebars.escapeExpression] on a string. *)
Fixpoint hb_escape_chars (cs : list ascii) : string :=
  match cs with
  | [] => ""
  | c :: rest =>
      (if Ascii.eqb c "&" then "&amp;"
       else if Ascii.eqb c "<" then "&lt;"
       else if Ascii.eqb c ">" then "&gt;"
       else if Ascii.eqb c "034"%char then "&quot;"
       else if Ascii.eqb c "'" then "&#x27;"
       else if Ascii.eqb c "`" then "&#x60;"
       else if Ascii.eqb c "=" then "&#x3D;"
       else String c "") ++ hb_escape_chars rest
  end.

Definition js_bool_string (b : bool) : string := if b then "true" else "false".

(** [escapeExpression] of a value: [null]/[undefined] give [""], booleans
    and numbers their [String] form, strings are HTML-escaped.  [ANum z]
    stands for an integer-valued number, printed in decimal; this is the
    [String] form of an integer below [10^21] in magnitude only (larger
    numbers print in exponent form, [1e+21]). *)
Definition hb_render_any (v : option anyval) : string :=
  match v with
  | None | Some ANull => ""
  | Some (AStr s) => hb_escape_chars (list_ascii_of_string s)
  | Some (ANum z) => pretty z
  | Some (ABool b) => js_bool_string b
  end.

Definition hb_render_bool (b : option bool) : string :=
  match b with None => "" | Some b => js_bool_string b end.

(** A path resolved against the execution context through own properties
    only ([lookupProperty]); a missing step or field is [undefined]. *)
Definition hb_render_path (ctx : ExecutionContext) (path : list string) : string :=
  match path with
  | [id] => match ctx !! id with Some _ => "[object Object]" | None => "" end
  | [id; field] =>
      match ctx !! id with
      | None => ""
      | Some r =>
          if String.eqb field "success" then hb_render_bool (success r)
          else if String.eqb field "value" then hb_render_any (value r)
          else if String.eqb field "executing" then hb_render_bool (executing r)
          else ""
      end
  | _ => ""
  end.

Definition hb_render_seg (ctx : ExecutionContext) (seg : hbSeg) : string :=
  match seg with
  | HText s => s
  | HPath p => hb_render_path ctx p
  end.

(** [Handlebars.compile(param)(executionContext)]. *)
Definition hb_render (ctx : ExecutionContext) (template : string) : option string :=
  match hb_compile template with
  | Some segs => Some (String.concat "" (map (hb_render_seg ctx) segs))
  | None => None
  end.

(** The [args] loop of the View and Method completers. *)
Fixpoint renderParams (ctx : ExecutionContext) (params : list string) : option (list string) :=
  match params with
  | [] => Some []
  | p :: ps =>
      match hb_render ctx p, renderParams ctx ps with
      | Some a, Some args => Some (a :: args)
      | _, _ => None
      end
  end.

(* ================================================================== *)
(** ** The chain client and the step completers (src/completers.ts) *)

(** The web3 calls the completers make, as a trace of interactions. *)
Record Transaction := mkTx {
  tx_from : option string;
  tx_to : option string;
  tx_data : option string;
  tx_value : option string;
  tx_chainId : option string;
  tx_gas : option string;
  tx_gasPrice : option string
}.

(** [PayableCallOptions]: the caller's transaction overrides.  The model
    keeps the fields [from], [value], [gas] and [gasPrice]; other fields a
    caller may pass (chainId, data, nonce, type, maxFeePerGas, ...), which
    the source's object spread would copy as well, are outside it. *)
Record PayableCallOptions := mkOpts {
  opt_from : option string;
  opt_value : option string;
  opt_gas : option string;
  opt_gasPrice : option string
}.

Definition noOpts : PayableCallOptions := mkOpts None None None None.

Record Block := mkBlock {
  block_number : Z;
  block_hash : option string
}.

(** The answers of the chain client.  [getChainId] is the bigint that
    [web3.eth.getChainId()] resolves to; [sendSignedTransaction] is the
    [toString()] of what [web3.eth.sendSignedTransaction] resolves to. *)
Record Web3 := mkWeb3 {
  getChainId : Z;
  getBlock : string -> Block;
  call : string -> AbiFunctionFragment -> list string -> Z -> anyval;
  signTransaction : Transaction -> string;
  sendSignedTransaction : string -> string
}.

Inductive event : Type :=
| EvGetChainId
| EvGetBlock (blockNumber : string)
| EvCall (to : string) (abi : AbiFunctionFragment) (args : list string) (block : Z)
| EvSend (to : string) (abi : AbiFunctionFragment) (args : list string) (txConfig : PayableCallOptions)
| EvSignTransaction (tx : Transaction)
| EvSendSignedTransaction (raw : string).

(** How an action's promise settles: resolved or rejected, with the
    execution context and the step as mutated so far and the chain-client
    interactions in order.  [Unmodelled] marks a parameter template outside
    the modelled Handlebars fragment. *)
Inductive Outcome (S : Type) : Type :=
| Returned (ctx : ExecutionContext) (step : S) (trace : list event)
| Threw (ctx : ExecutionContext) (step : S) (trace : list event)
| Unmodelled.
Arguments Returned {S} ctx step trace.
Arguments Threw {S} ctx step trace.
Arguments Unmodelled {S}.

(** [if (executionContext[step.stepID] === undefined)
       executionContext[step.stepID] = { executing: true };] *)
Definition markInFlight (ctx : ExecutionContext) (id : string) : ExecutionContext :=
  if js_is_undefined (js_get ctx id) then js_set ctx id (mkResult None None (Some true))
  else ctx.

(** [chainIDRaw.toString()]: the decimal form of the bigint. *)
Definition chainIDString (w : Web3) : string := pretty (getChainId w).

Definition completeInputStep (executionContext : ExecutionContext) (step : InputStep)
    (v : string) : Outcome InputStep :=
  let id := stepID (in_base step) in
  let ctx1 := markInFlight executionContext id in
  let step' := mkInput (in_base step) (Some (AStr v)) in
  Returned (js_set ctx1 id (mkResult (Some true) (Some (AStr v)) (Some false))) step' [].

(** [completeMethodStep].  The action awaits [methodTransaction], the
    method object, not the promise returned by [send]; it resumes before
    the [transactionHash] and [error] callbacks can run, so it settles with
    the step's result fields as they were ([methodOnTransactionHash] and
    [methodOnError] are those callbacks, run later). *)
Definition completeMethodStep (executionContext : ExecutionContext) (step : MethodStep)
    (sender : string) (w : Web3) (userTxConfig : option PayableCallOptions)
    : Outcome MethodStep :=
  let id := stepID (method_base step) in
  let ctx1 := markInFlight executionContext id in
  if negb (String.eqb (chainIDString w) (method_chainID step)) then
    Threw ctx1 step [EvGetChainId]
  else
    let base := match userTxConfig with Some o => o | None => noOpts end in
    let txConfig := mkOpts (Some sender) (method_value step) (opt_gas base) (opt_gasPrice base) in
    match renderParams ctx1 (method_params step) with
    | None => Unmodelled
    | Some args =>
        Returned (js_set ctx1 id (mkResult (Some true) (method_output step) (Some false)))
          step
          [EvGetChainId; EvSend (method_to step) (method_methodABI step) args txConfig]
    end.

Definition methodOnTransactionHash (step : MethodStep) (hash : string) : MethodStep :=
  mkMethod (method_base step) (method_chainID step) (method_to step) (method_methodABI step)
    (method_params step) (method_value step) (Some hash) (method_success step)
    (method_output step).

Definition methodOnError (step : MethodStep) (errorJSON : anyval) : MethodStep :=
  mkMethod (method_base step) (method_chainID step) (method_to step) (method_methodABI step)
    (method_params step) (method_value step) (method_txHash step) (method_success step)
    (Some errorJSON).

(** [{ ...transaction, ...userTxConfig }]: the overrides that are set win. *)
Definition mergeTx (tx : Transaction) (o : PayableCallOptions) : Transaction :=
  let pick (a b : option string) := match b with Some _ => b | None => a end in
  mkTx (pick (tx_from tx) (opt_from o)) (tx_to tx) (tx_data tx)
    (pick (tx_value tx) (opt_value o)) (tx_chainId tx)
    (pick (tx_gas tx) (opt_gas o)) (pick (tx_gasPrice tx) (opt_gasPrice o)).

Definition completeRawStep (executionContext : ExecutionContext) (step : RawStep)
    (sender : string) (w : Web3) (userTxConfig : option PayableCallOptions)
    : Outcome RawStep :=
  let id := stepID (raw_base step) in
  let ctx1 := markInFlight executionContext id in
  let transaction0 := mkTx (Some sender) (Some (raw_to step)) (Some (raw_calldata step))
                        (raw_value step) (Some (raw_chainID step)) None None in
  let transaction := match userTxConfig with
                     | Some o => mergeTx transaction0 o
                     | None => transaction0
                     end in
  let signedRaw := signTransaction w transaction in
  let txHash := sendSignedTransaction w signedRaw in
  let step' := mkRaw (raw_base step) (raw_chainID step) (raw_to step) (raw_calldata step)
                 (raw_value step) (raw_methodABI step) (Some txHash) (Some true) in
  Returned (js_set ctx1 id (mkResult (Some true) None (Some false))) step'
    [EvSignTransaction transaction; EvSendSignedTransaction signedRaw].

Definition completeViewStep (executionContext : ExecutionContext) (step : ViewStep)
    (w : Web3) (blockNumber : string) : Outcome ViewStep :=
  let id := stepID (view_base step) in
  let ctx1 := markInFlight executionContext id in
  if negb (String.eqb (chainIDString w) (view_chainID step)) then
    Threw ctx1 step [EvGetChainId]
  else
    match renderParams ctx1 (view_params step) with
    | None => Unmodelled
    | Some args =>
        let block := getBlock w blockNumber in
        let result := call w (view_to step) (view_methodABI step) args (block_number block) in
        let hash := match block_hash block with
                    | Some h => if String.eqb h "" then "unknown" else h
                    | None => "unknown"
                    end in
        let step' := mkView (view_base step) (view_chainID step) (view_to step)
                       (view_methodABI step) (view_params step) (Some result)
                       (Some blockNumber) (Some hash) in
        Returned (js_set ctx1 id (mkResult (Some true) (Some result) (Some false))) step'
          [EvGetChainId; EvGetBlock blockNumber;
           EvCall (view_to step) (view_methodABI step) args (block_number block)]
    end.

(* ================================================================== *)
(** ** Sample data (src/test/checklist.ts) and a success-field update *)

Definition manualStep (id : string) (ds : list string) (v : option anyval) : Step :=
  Manual (mkInput (mkBase "friend" id None ds) v).

Definition mkList (l : list Step) : Checklist := mkChecklist "0xdead" None l None.

Definition chain3 (va vb vc : option anyval) : list Step :=
  [manualStep "a" [] va; manualStep "b" ["a"] vb; manualStep "c" ["b"] vc].

Definition graph7 : list Step :=
  [manualStep "a" [] None; manualStep "b" ["a"] None; manualStep "c" ["b"] None;
   manualStep "d" ["a"] None; manualStep "e" ["d"; "f"] None;
   manualStep "f" ["d"; "g"] None; manualStep "g" ["d"; "e"] None].

Definition rawStep (id : string) (ds : list string) (chain : string)
    (txHash : option string) (ok : option bool) : RawStep :=
  mkRaw (mkBase "friend" id None ds) chain "0xA0b86991c6218b36c1d19D4a2e9Eb0cE3606eB48"
    "a9059cbb" (Some "0") None txHash ok.

Definition viewStep (id : string) (chain : string) (params : list string) : ViewStep :=
  mkView (mkBase "friend" id None []) chain "0xA0b86991c6218b36c1d19D4a2e9Eb0cE3606eB48"
    "decimals()" params None None None.

Definition methodStep (id : string) (chain : string) (params : list string) : MethodStep :=
  mkMethod (mkBase "friend" id None []) chain "0xA0b86991c6218b36c1d19D4a2e9Eb0cE3606eB48"
    "transfer(address,uint256)" params (Some "0") None None None.

(** A chain client on chain [1] whose transactions hash to ["0xabc"]. *)
Definition web3_chain1 : Web3 :=
  mkWeb3 1 (fun _ => mkBlock 100 (Some "0xb10c")) (fun _ _ _ _ => AStr "6")
    (fun _ => "0xf00d") (fun _ => "0xabc").

(** Overwrites the recorded [success] of a Raw or Method step. *)
Definition setSuccess (ok : option bool) (step : Step) : Step :=
  match step with
  | Raw x => Raw (mkRaw (raw_base x) (raw_chainID x) (raw_to x) (raw_calldata x)
                        (raw_value x) (raw_methodABI x) (raw_txHash x) ok)
  | Method x => Method (mkMethod (method_base x) (method_chainID x) (method_to x)
                          (method_methodABI x) (method_params x) (method_value x)
                          (method_txHash x) ok (method_output x))
  | _ => step
  end.

(* ================================================================== *)
(** ** The dependency graph, as the specification describes it *)

(** An edge [a -> b]: the step [a] lists [b] in [dependsOn]. *)
Definition depEdge (steps : list Step) (a b : string) : Prop :=
  exists s, In s steps /\ sid s = a /\ In b (deps s).

(** The dependency graph is a DAG: no step reaches itself. *)
Definition acyclic (steps : list Step) : Prop :=
  forall a, ~ clos_trans string (depEdge steps) a a.

(** The invariant of the rounds of [calculateLevels] on [steps0]: [R] is the
    list still to level, [c] the current level, [M] the levels so far. *)
Definition levelInv (steps0 R : list Step) (c : nat) (M : gmap string nat) : Prop :=
  1 <= c
  /\ R = List.filter (unlevelled M) steps0
  /\ (forall k n, M !! k = Some n -> In k (map sid steps0) /\ 1 <= n < c)
  /\ (forall s n, In s steps0 -> M !! sid s = Some n ->
        n = 1 + list_max (map (fun d => default 0 (M !! d)) (deps s))
        /\ forall d, In d (deps s) -> In d (map sid steps0) -> is_Some (M !! d))
  /\ (forall s, In s R -> 1 < c ->
        exists d, In d (deps s) /\ is_proto_prop d = false
                  /\ (M !! d = None \/ M !! d = Some (c - 1))).

(** A walk [x -> p1 -> p2 -> ...] along [E]. *)
Fixpoint walk {A} (E : A -> A -> Prop) (x : A) (p : list A) : Prop :=
  match p with
  | [] => True
  | y :: p' => E x y /\ walk E y p'
  end.

(** Order by a natural-number key, the order a level comparator sorts by. *)
Definition key_le {A} (key : A -> nat) (a b : A) : Prop := key a <= key b.

(** What [transitiveDependencies] of [nextSteps] holds for a step of
    [steps] once the loop has passed it: its transitive dependencies, as
    keys. *)
Definition tdGood (steps : list Step) (td : gmap string (list tdep)) (t : Step) : Prop :=
  exists l, td !! sid t = Some l
    /\ (forall x, In x l -> exists k, x = TKey k)
    /\ (forall k, In (TKey k) l <-> clos_trans string (depEdge steps) (sid t) k).

(* ================================================================== *)
(** * Properties *)

(** ** Plain-object maps *)

Lemma js_set_not_proto {V} (m : gmap string V) k v :
  k <> "__proto__" -> js_set m k v = <[k := v]> m.
Proof.
  intros Hk. unfold js_set. destruct (String.eqb_spec k "__proto__"); congruence.
Qed.

Lemma js_get_own {V} (m : gmap string V) k v : m !! k = Some v -> js_get m k = JOwn v.
Proof. unfold js_get. intros ->. reflexivity. Qed.

Lemma js_get_undef_iff {V} (m : gmap string V) k :
  js_is_undefined (js_get m k) = true <-> m !! k = None /\ is_proto_prop k = false.
Proof.
  unfold js_get. destruct (m !! k); simpl; [split; intros H; [discriminate | destruct H; discriminate]|].
  destruct (is_proto_prop k); simpl; split; intros H; try discriminate; try tauto.
  destruct H; discriminate.
Qed.

Lemma proto_is_proto : is_proto_prop "__proto__" = true.
Proof. reflexivity. Qed.

(** ** C4: completeness of a step *)

(** C4: a Manual step is complete iff [value] is set, a View step iff
    [output] is set, a Raw or Method step iff [txHash] is set; the recorded
    [success] plays no part. *)
Theorem isStepComplete_result_field (step : Step) (ok : option bool) :
  (isStepComplete step = true <->
     match step with
     | Manual x => in_value x <> None
     | View x => view_output x <> None
     | Raw x => raw_txHash x <> None
     | Method x => method_txHash x <> None
     end)
  /\ isStepComplete (setSuccess ok step) = isStepComplete step.
Proof.
  destruct step as [x|x|x|x]; simpl;
    [destruct (in_value x) | destruct (view_output x) | destruct (raw_txHash x)
    | destruct (method_txHash x)];
    (split; [split; intros H; congruence | reflexivity]).
Qed.

(** ** Validation: what [checkStepIDs] guarantees *)

Lemma checkUnique_sound (l : list Step) :
  forall (m m' : gmap string bool),
    (forall k v, m !! k = Some v -> v = true) ->
    checkUnique m l = Some m' ->
    NoDup (map sid l)
    /\ (forall s, In s l -> is_proto_prop (sid s) = false /\ m !! sid s = None)
    /\ (forall k, is_Some (m' !! k) <-> is_Some (m !! k) \/ In k (map sid l)).
Proof.
  induction l as [|s l IH]; intros m m' Htrue Hc; simpl in Hc.
  - inversion Hc; subst. split; [constructor|]. split; [intros s []|].
    intros k. simpl. tauto.
  - unfold js_get in Hc.
    destruct (m !! sid s) as [b|] eqn:Hm.
    + rewrite (Htrue _ _ Hm) in Hc. discriminate.
    + destruct (is_proto_prop (sid s)) eqn:Hp; [discriminate|].
      assert (Hne : sid s <> "__proto__").
      { intros E. rewrite E in Hp. discriminate. }
      rewrite js_set_not_proto in Hc by exact Hne.
      assert (Htrue' : forall k v, (<[sid s := true]> m : gmap string bool) !! k = Some v -> v = true).
      { intros k v Hk. rewrite lookup_insert in Hk.
        case_decide; [congruence | eauto]. }
      destruct (IH _ _ Htrue' Hc) as (Hnd & Hin & Hdom).
      split; [|split].
      * simpl. constructor; [|exact Hnd].
        intros Hin'. apply list_elem_of_In, in_map_iff in Hin' as (t & Ht & Htl).
        destruct (Hin t Htl) as [_ Hn]. rewrite Ht in Hn.
        rewrite lookup_insert_eq in Hn. discriminate.
      * intros t [<-|Ht]; [split; assumption|].
        destruct (Hin t Ht) as [Hpt Hn]. split; [exact Hpt|].
        rewrite lookup_insert in Hn. case_decide; [discriminate|exact Hn].
      * intros k. rewrite Hdom. rewrite lookup_insert. simpl.
        case_decide as E; subst; split; intros H.
        -- right. left. reflexivity.
        -- left. eexists; reflexivity.
        -- destruct H as [H|H]; [left; exact H | right; right; exact H].
        -- destruct H as [H|[H|H]]; [left; exact H | congruence | right; exact H].
Qed.

(** A checklist that passes [checkStepIDs] has distinct step IDs, none of
    them a property name of [Object.prototype], and each dependency names
    a step or such a property. *)
Lemma checkStepIDs_sound (cl : Checklist) :
  checkStepIDs cl = true ->
  NoDup (map sid (steps cl))
  /\ (forall s, In s (steps cl) -> is_proto_prop (sid s) = false)
  /\ (forall s d, In s (steps cl) -> In d (deps s) ->
        In d (map sid (steps cl)) \/ is_proto_prop d = true).
Proof.
  unfold checkStepIDs. destruct (checkUnique ∅ (steps cl)) as [m'|] eqn:Hc; [|discriminate].
  intros Hall.
  assert (H0 : forall k v, (∅ : gmap string bool) !! k = Some v -> v = true).
  { intros k v Hk. rewrite lookup_empty in Hk. discriminate. }
  destruct (checkUnique_sound _ _ _ H0 Hc) as (Hnd & Hin & Hdom).
  split; [exact Hnd|]. split; [intros s Hs; apply (Hin s Hs)|].
  intros s d Hs Hd.
  rewrite forallb_forall in Hall. specialize (Hall s Hs).
  rewrite forallb_forall in Hall. specialize (Hall d Hd).
  apply negb_true_iff in Hall. unfold js_get in Hall.
  destruct (m' !! d) eqn:Hm.
  - left. assert (H : is_Some (m' !! d)) by (rewrite Hm; eexists; reflexivity).
    apply Hdom in H as [H|H]; [rewrite lookup_empty in H; destruct H; discriminate | exact H].
  - right. destruct (is_proto_prop d); [reflexivity | discriminate].
Qed.

(** ** C8: [checkStepIDs] on property names of [Object.prototype] *)

(** C8 (checkStepIDs): the claim that it returns false exactly on repeated
    step IDs or dangling dependencies fails on property names inherited
    from [Object.prototype]: a single step named "constructor" (unique, no
    dependencies) is rejected, and a step depending on the nonexistent
    step "toString" is accepted. *)
Theorem checkStepIDs_prototype_names :
  checkStepIDs (mkList [manualStep "constructor" [] None]) = false
  /\ checkStepIDs (mkList [manualStep "a" ["toString"] None]) = true.
Proof. split; reflexivity. Qed.

(** ** Finite graphs: a closed nonempty set of nodes contains a cycle *)

Section Pigeonhole.
Variable E : string -> string -> Prop.

Lemma walk_reaches (x : string) (p : list string) (y : string) :
  walk E x p -> In y p -> clos_trans string E x y.
Proof.
  revert x. induction p as [|z p IH]; intros x Hw Hy; [destruct Hy|].
  destruct Hw as [Hxz Hw]. destruct Hy as [<-|Hy].
  - apply t_step. exact Hxz.
  - eapply t_trans; [apply t_step; exact Hxz | apply IH; assumption].
Qed.

Lemma walk_repeat_cycle (x : string) (p : list string) :
  walk E x p -> ~ NoDup (x :: p) -> exists z, clos_trans string E z z.
Proof.
  revert x. induction p as [|y p IH]; intros x Hw Hnd.
  - exfalso. apply Hnd. constructor; [intros H; inversion H | constructor].
  - destruct (in_dec string_dec x (y :: p)) as [Hin|Hin].
    + exists x. eapply walk_reaches; eassumption.
    + destruct Hw as [_ Hw]. apply (IH y Hw).
      intros Hnd'. apply Hnd. constructor; [|exact Hnd'].
      intros H. apply Hin. apply list_elem_of_In. exact H.
Qed.

Lemma walk_build (P : list string) :
  (forall x, In x P -> exists y, In y P /\ E x y) ->
  forall k x, In x P ->
    exists p, length p = k /\ (forall y, In y p -> In y P) /\ walk E x p.
Proof.
  intros Hclosed k. induction k as [|k IH]; intros x Hx.
  - exists []. repeat split. intros y [].
  - destruct (Hclosed x Hx) as (y & Hy & Hxy).
    destruct (IH y Hy) as (p & Hlen & Hin & Hw).
    exists (y :: p). split; [simpl; congruence|]. split.
    + intros z [<-|Hz]; [exact Hy | apply Hin; exact Hz].
    + split; assumption.
Qed.

(** If every node of a nonempty finite set has a successor in the set,
    some node reaches itself. *)
Lemma closed_set_cycle (P : list string) :
  P <> [] -> (forall x, In x P -> exists y, In y P /\ E x y) ->
  exists z, clos_trans string E z z.
Proof.
  intros Hne Hclosed. destruct P as [|x P']; [congruence|].
  destruct (walk_build _ Hclosed (length (x :: P')) x (or_introl eq_refl))
    as (p & Hlen & Hin & Hw).
  apply (walk_repeat_cycle x p Hw). intros Hnd.
  apply NoDup_ListNoDup in Hnd.
  assert (Hincl : incl (x :: p) (x :: P')).
  { intros z [<-|Hz]; [left; reflexivity | apply Hin; exact Hz]. }
  pose proof (NoDup_incl_length Hnd Hincl) as Hle. simpl in Hle, Hlen. lia.
Qed.
End Pigeonhole.

(** ** Lists *)

Lemma filter_length_le {A} (f : A -> bool) (l : list A) :
  length (List.filter f l) <= length l.
Proof. induction l as [|y l IH]; simpl; [lia|]. destruct (f y); simpl; lia. Qed.

Lemma filter_length_lt {A} (f : A -> bool) (l : list A) (x : A) :
  In x l -> f x = false -> length (List.filter f l) < length l.
Proof.
  induction l as [|y l IH]; intros Hx Hf; [destruct Hx|].
  simpl. destruct Hx as [<-|Hx].
  - rewrite Hf. pose proof (filter_length_le f l) as H. simpl. lia.
  - destruct (f y); simpl; [specialize (IH Hx Hf); lia|].
    pose proof (filter_length_le f l) as H. lia.
Qed.

Lemma NoDup_map_inj {A B} (f : A -> B) (l : list A) (x y : A) :
  NoDup (map f l) -> In x l -> In y l -> f x = f y -> x = y.
Proof.
  induction l as [|z l IH]; intros Hnd Hx Hy Hxy; [destruct Hx|].
  simpl in Hnd. apply NoDup_cons in Hnd as [Hz Hnd].
  destruct Hx as [<-|Hx]; destruct Hy as [<-|Hy]; auto.
  - exfalso. apply Hz. apply list_elem_of_In. rewrite Hxy. apply in_map. exact Hy.
  - exfalso. apply Hz. apply list_elem_of_In. rewrite <- Hxy. apply in_map. exact Hx.
Qed.

Lemma filter_filter_weaker {A} (f g : A -> bool) (l : list A) :
  (forall x, In x l -> g x = true -> f x = true) ->
  List.filter g (List.filter f l) = List.filter g l.
Proof.
  induction l as [|x l IH]; intros H; simpl; [reflexivity|].
  destruct (f x) eqn:Hf; destruct (g x) eqn:Hg; simpl; try rewrite Hg;
    rewrite ?IH by (intros y Hy; apply H; right; exact Hy); try reflexivity.
  rewrite (H x (or_introl eq_refl) Hg) in Hf. discriminate.
Qed.

Lemma forallb_false_exists {A} (f : A -> bool) (l : list A) :
  forallb f l = false -> exists x, In x l /\ f x = false.
Proof.
  induction l as [|x l IH]; simpl; [discriminate|].
  destruct (f x) eqn:Hf; simpl; intros H.
  - destruct (IH H) as (y & Hy & Hfy). exists y. split; [right|]; assumption.
  - exists x. split; [left; reflexivity | exact Hf].
Qed.

(** ** Leveling on a checklist that passes [checkStepIDs] *)

Section Leveling.
Variable steps0 : list Step.
Hypothesis Hnd : NoDup (map sid steps0).
Hypothesis Hnp : forall s, In s steps0 -> is_proto_prop (sid s) = false.
Hypothesis Hdeps : forall s d, In s steps0 -> In d (deps s) ->
  In d (map sid steps0) \/ is_proto_prop d = true.

Lemma id_not_proto (k : string) : In k (map sid steps0) -> is_proto_prop k = false.
Proof. intros H. apply in_map_iff in H as (s & <- & Hs). auto. Qed.

Lemma id_not_proto_key (k : string) : In k (map sid steps0) -> k <> "__proto__".
Proof. intros H E. pose proof (id_not_proto _ H) as Hp. rewrite E in Hp. discriminate. Qed.

Lemma unlevelled_iff (M : gmap string nat) (s : Step) :
  In s steps0 -> unlevelled M s = true <-> M !! sid s = None.
Proof.
  intros Hs. unfold unlevelled. rewrite js_get_undef_iff. rewrite (Hnp s Hs). tauto.
Qed.

Lemma levelTruthy_iff (M : gmap string nat) (d : string) :
  (forall k n, M !! k = Some n -> 1 <= n) ->
  levelTruthy M d = true <-> is_Some (M !! d) \/ is_proto_prop d = true.
Proof.
  intros Hpos. unfold levelTruthy, js_get. destruct (M !! d) as [n|] eqn:E.
  - specialize (Hpos _ _ E). destruct n as [|n]; [lia|]. simpl.
    split; intros _; [left; eexists; reflexivity | reflexivity].
  - destruct (is_proto_prop d); simpl; split; intros H; try reflexivity; try discriminate.
    + right. reflexivity.
    + destruct H as [[x Hx]|H]; discriminate.
Qed.

Lemma assignLevel_notin (c : nat) (LS : list Step) (M : gmap string nat) (k : string) :
  ~ In k (map sid LS) -> assignLevel c LS M !! k = M !! k.
Proof.
  unfold assignLevel. revert M. induction LS as [|s LS IH]; intros M Hk; simpl; [reflexivity|].
  rewrite IH by (intros H; apply Hk; right; exact H).
  unfold js_set. destruct (String.eqb (sid s) "__proto__"); [reflexivity|].
  rewrite lookup_insert_ne; [reflexivity|]. intros E; apply Hk; left; exact E.
Qed.

Lemma assignLevel_in (c : nat) (LS : list Step) (M : gmap string nat) (k : string) :
  (forall s, In s LS -> sid s <> "__proto__") ->
  In k (map sid LS) -> assignLevel c LS M !! k = Some c.
Proof.
  revert M. induction LS as [|s LS IH]; intros M Hp Hk; simpl in Hk; [destruct Hk|].
  destruct (in_dec string_dec k (map sid LS)) as [Hin|Hin].
  - unfold assignLevel. simpl. apply IH; [intros t Ht; apply Hp; right; exact Ht | exact Hin].
  - destruct Hk as [<-|Hk]; [|contradiction].
    unfold assignLevel. simpl.
    pose proof (assignLevel_notin c LS (js_set M (sid s) c) (sid s) Hin) as H.
    unfold assignLevel in H. rewrite H.
    rewrite js_set_not_proto by (apply Hp; left; reflexivity). apply lookup_insert_eq.
Qed.

Lemma levelInv_init : levelInv steps0 steps0 1 ∅.
Proof.
  split; [lia|]. split.
  { symmetry. apply forallb_filter_id. apply forallb_forall. intros s Hs.
    apply unlevelled_iff; [exact Hs | apply lookup_empty]. }
  split; [intros k n H; rewrite lookup_empty in H; discriminate|].
  split; [intros s n _ H; rewrite lookup_empty in H; discriminate|].
  intros s _ H. lia.
Qed.

Lemma levelInv_step (R : list Step) (c : nat) (M : gmap string nat) :
  levelInv steps0 R c M -> nextLevel R M <> [] ->
  levelInv steps0 (List.filter (unlevelled (assignLevel c (nextLevel R M) M)) R) (S c)
    (assignLevel c (nextLevel R M) M).
Proof.
  intros (Hc & HR & Hkeys & Hform & Hstuck) Hne.
  set (LS := nextLevel R M). set (M' := assignLevel c LS M).
  assert (HRin : forall s, In s R -> In s steps0 /\ M !! sid s = None).
  { intros s Hs. rewrite HR in Hs. apply filter_In in Hs as [Hs Hu].
    split; [exact Hs | apply unlevelled_iff; assumption]. }
  assert (HLS : forall s, In s LS ->
            In s R /\ M !! sid s = None /\ forallb (levelTruthy M) (deps s) = true).
  { intros s Hs. apply filter_In in Hs as [Hs Hb]. apply andb_prop in Hb as [_ Hb].
    split; [exact Hs|]. split; [apply HRin; exact Hs | exact Hb]. }
  assert (HLSsteps : forall s, In s LS -> In s steps0).
  { intros s Hs. apply HRin, HLS, Hs. }
  assert (HLSid : forall k, In k (map sid LS) -> In k (map sid steps0)).
  { intros k Hk. apply in_map_iff in Hk as (s & <- & Hs). apply in_map, HLSsteps, Hs. }
  assert (HLSnone : forall k, In k (map sid LS) -> M !! k = None).
  { intros k Hk. apply in_map_iff in Hk as (s & <- & Hs). apply HLS, Hs. }
  assert (HM'in : forall k, In k (map sid LS) -> M' !! k = Some c).
  { intros k Hk. apply assignLevel_in; [|exact Hk].
    intros s Hs. apply id_not_proto_key, in_map, HLSsteps, Hs. }
  assert (HM'out : forall k, ~ In k (map sid LS) -> M' !! k = M !! k).
  { intros k Hk. apply assignLevel_notin, Hk. }
  assert (Hmono : forall k n, M !! k = Some n -> M' !! k = Some n).
  { intros k n Hk. rewrite HM'out; [exact Hk|]. intros Hin. rewrite HLSnone in Hk by exact Hin.
    discriminate. }
  assert (Hpos : forall k n, M !! k = Some n -> 1 <= n).
  { intros k n Hk. apply Hkeys in Hk. lia. }
  (* dependencies of a levelled or levelable step keep their lookups *)
  assert (Hsame : forall d, (is_Some (M !! d) \/ ~ In d (map sid steps0)) -> M' !! d = M !! d).
  { intros d [[n Hn]|Hd]; [rewrite Hn; apply Hmono, Hn|].
    apply HM'out. intros Hin. apply Hd, HLSid, Hin. }
  split; [lia|]. split.
  { rewrite HR. apply filter_filter_weaker. intros s Hs Hu.
    apply unlevelled_iff; [exact Hs|]. apply unlevelled_iff in Hu; [|exact Hs].
    destruct (M !! sid s) eqn:E; [|reflexivity]. apply Hmono in E. congruence. }
  split.
  { intros k n Hk. destruct (in_dec string_dec k (map sid LS)) as [Hin|Hin].
    - rewrite HM'in in Hk by exact Hin. injection Hk as <-. split; [apply HLSid, Hin | lia].
    - rewrite HM'out in Hk by exact Hin. apply Hkeys in Hk as [Hk1 Hk2].
      split; [exact Hk1 | lia]. }
  split.
  { intros s n Hs Hn.
    assert (Hdeq : forall d, In d (deps s) ->
              (is_Some (M !! d) \/ is_proto_prop d = true) -> M' !! d = M !! d).
    { intros d Hd [Hd'|Hd']; apply Hsame; [left; exact Hd'|right].
      intros Hin. rewrite (id_not_proto _ Hin) in Hd'. discriminate. }
    destruct (in_dec string_dec (sid s) (map sid LS)) as [Hin|Hin].
    - rewrite HM'in in Hn by exact Hin. injection Hn as <-.
      apply in_map_iff in Hin as (t & Ht & HtLS).
      assert (t = s) as -> by (apply (NoDup_map_inj sid steps0); auto).
      destruct (HLS s HtLS) as (HsR & _ & Htr).
      rewrite forallb_forall in Htr.
      assert (Htr' : forall d, In d (deps s) -> is_Some (M !! d) \/ is_proto_prop d = true).
      { intros d Hd. apply levelTruthy_iff; [exact Hpos | apply Htr, Hd]. }
      rewrite (map_ext_in (fun d => default 0 (M' !! d)) (fun d => default 0 (M !! d)))
        by (intros d Hd; rewrite (Hdeq d Hd (Htr' d Hd)); reflexivity).
      split.
      + assert (Hle : list_max (map (fun d => default 0 (M !! d)) (deps s)) <= c - 1).
        { apply list_max_le, List.Forall_forall. intros x Hx.
          apply in_map_iff in Hx as (d & <- & Hd).
          destruct (M !! d) as [k|] eqn:Ek; simpl; [apply Hkeys in Ek; lia | lia]. }
        assert (Hge : c - 1 <= list_max (map (fun d => default 0 (M !! d)) (deps s))).
        { destruct (Nat.eq_dec c 1) as [->|Hc1]; [lia|].
          destruct (Hstuck s HsR ltac:(lia)) as (d & Hd & Hdp & Hdl).
          destruct (Htr' d Hd) as [[k Hk]|Hp]; [|congruence].
          destruct Hdl as [Hdl|Hdl]; [congruence|].
          pose proof (list_max_le (map (fun d => default 0 (M !! d)) (deps s))
                        (list_max (map (fun d => default 0 (M !! d)) (deps s)))) as [H _].
          specialize (H (le_n _)). rewrite List.Forall_forall in H.
          specialize (H _ (in_map _ _ _ Hd)). cbv beta in H. rewrite Hdl in H. simpl in H. lia. }
        lia.
      + intros d Hd Hdid. destruct (Htr' d Hd) as [Hs'|Hp].
        * rewrite (Hdeq d Hd (or_introl Hs')). exact Hs'.
        * rewrite (id_not_proto _ Hdid) in Hp. discriminate.
    - rewrite HM'out in Hn by exact Hin.
      destruct (Hform s n Hs Hn) as [Hf Hd].
      assert (Heq : forall d, In d (deps s) -> M' !! d = M !! d).
      { intros d Hd'. apply Hsame.
        destruct (in_dec string_dec d (map sid steps0)) as [Hid|Hid];
          [left; apply Hd; assumption | right; exact Hid]. }
      split.
      + rewrite Hf. f_equal. f_equal. apply map_ext_in. intros d Hd'. rewrite Heq by exact Hd'.
        reflexivity.
      + intros d Hd' Hid. rewrite Heq by exact Hd'. apply Hd; assumption. }
  intros s Hs _. apply filter_In in Hs as [HsR Hu].
  destruct (HRin s HsR) as [Hs0 HMs].
  assert (HnotLS : ~ In s LS).
  { intros HsLS. apply unlevelled_iff in Hu; [|exact Hs0].
    rewrite HM'in in Hu by (apply in_map, HsLS). discriminate. }
  assert (Hb : forallb (levelTruthy M) (deps s) = false).
  { destruct (forallb (levelTruthy M) (deps s)) eqn:E; [|reflexivity].
    exfalso. apply HnotLS. apply filter_In. split; [exact HsR|].
    rewrite E. apply andb_true_intro. split; [|reflexivity].
    apply unlevelled_iff; assumption. }
  destruct (forallb_false_exists _ _ Hb) as (d & Hd & Hdf).
  exists d. split; [exact Hd|].
  assert (Hnone : M !! d = None /\ is_proto_prop d = false).
  { destruct (M !! d) eqn:E.
    - exfalso. assert (levelTruthy M d = true) by (apply levelTruthy_iff; [exact Hpos | left; rewrite E; eexists; reflexivity]).
      congruence.
    - split; [reflexivity|]. destruct (is_proto_prop d) eqn:Ep; [|reflexivity].
      exfalso. assert (levelTruthy M d = true) by (apply levelTruthy_iff; [exact Hpos | right; exact Ep]).
      congruence. }
  destruct Hnone as [Hnone Hdp]. split; [exact Hdp|].
  destruct (in_dec string_dec d (map sid LS)) as [Hin|Hin].
  - right. rewrite HM'in by exact Hin. f_equal. lia.
  - left. rewrite HM'out by exact Hin. exact Hnone.
Qed.

Lemma calculateLevels_fuel_inv (fuel : nat) :
  forall R c M, levelInv steps0 R c M -> length R < fuel ->
    exists R' c', levelInv steps0 R' c' (calculateLevels_fuel fuel R c M)
                  /\ nextLevel R' (calculateLevels_fuel fuel R c M) = [].
Proof.
  induction fuel as [|fuel IH]; intros R c M Hinv Hlen; [lia|].
  cbn [calculateLevels_fuel]. destruct (nextLevel R M) as [|s LS] eqn:Hnl.
  - exists R, c. split; assumption.
  - rewrite <- Hnl. apply IH.
    + apply levelInv_step; [exact Hinv | rewrite Hnl; discriminate].
    + assert (Hs : In s (nextLevel R M)) by (rewrite Hnl; left; reflexivity).
      destruct Hinv as (_ & HR & _).
      pose proof Hs as Hs'. apply filter_In in Hs' as [HsR _].
      assert (Hs0 : In s steps0) by (rewrite HR in HsR; apply filter_In in HsR; apply HsR).
      assert (unlevelled (assignLevel c (nextLevel R M) M) s = false).
      { destruct (unlevelled (assignLevel c (nextLevel R M) M) s) eqn:E; [|reflexivity].
        apply unlevelled_iff in E; [|exact Hs0].
        rewrite assignLevel_in in E; [discriminate| |apply in_map, Hs].
        intros t Ht. apply id_not_proto_key, in_map.
        apply filter_In in Ht as [Ht _]. rewrite HR in Ht. apply filter_In in Ht. apply Ht. }
      pose proof (filter_length_lt _ R s HsR H). lia.
Qed.

(** [calculateLevels] stops at a fixed point of the rounds. *)
Lemma calculateLevels_fixpoint :
  exists R c, levelInv steps0 R c (calculateLevels steps0 1 ∅)
              /\ nextLevel R (calculateLevels steps0 1 ∅) = [].
Proof. apply calculateLevels_fuel_inv; [apply levelInv_init | lia]. Qed.

(** Steps left without a level at the fixed point lie on or behind a cycle. *)
Lemma stuck_cycle (R : list Step) (c : nat) (M : gmap string nat) :
  levelInv steps0 R c M -> nextLevel R M = [] -> R <> [] ->
  exists a, clos_trans string (depEdge steps0) a a.
Proof.
  intros (_ & HR & Hkeys & _ & _) Hnl Hne.
  assert (Hpos : forall k n, M !! k = Some n -> 1 <= n).
  { intros k n Hk. apply Hkeys in Hk. lia. }
  apply (closed_set_cycle _ (map sid R)); [destruct R; simpl; congruence|].
  intros x Hx. apply in_map_iff in Hx as (s & <- & HsR).
  pose proof HsR as Hs0. rewrite HR in Hs0. apply filter_In in Hs0 as [Hs0 Hu].
  assert (Hb : forallb (levelTruthy M) (deps s) = false).
  { destruct (forallb (levelTruthy M) (deps s)) eqn:E; [|reflexivity].
    exfalso. assert (Hin : In s (nextLevel R M)).
    { apply filter_In. split; [exact HsR|]. rewrite Hu, E. reflexivity. }
    rewrite Hnl in Hin. destruct Hin. }
  destruct (forallb_false_exists _ _ Hb) as (d & Hd & Hdf).
  destruct (Hdeps s d Hs0 Hd) as [Hid|Hp].
  - apply in_map_iff in Hid as (t & Ht & Ht0).
    exists (sid t). split.
    + apply in_map. rewrite HR. apply filter_In. split; [exact Ht0|].
      apply unlevelled_iff; [exact Ht0|]. rewrite Ht.
      destruct (M !! d) eqn:E; [|reflexivity].
      assert (levelTruthy M d = true) by (apply levelTruthy_iff; [exact Hpos | left; rewrite E; eexists; reflexivity]).
      congruence.
    + exists s. split; [exact Hs0|]. split; [reflexivity|]. rewrite Ht. exact Hd.
  - assert (levelTruthy M d = true) by (apply levelTruthy_iff; [exact Hpos | right; exact Hp]).
    congruence.
Qed.

Lemma depEdge_source (a b : string) : depEdge steps0 a b -> In a (map sid steps0).
Proof. intros (s & Hs & <- & _). apply in_map, Hs. Qed.

(** When every step has a level, levels strictly decrease along edges. *)
Lemma levelled_acyclic (R : list Step) (c : nat) (M : gmap string nat) :
  levelInv steps0 R c M -> R = [] -> acyclic steps0.
Proof.
  intros (_ & HR & Hkeys & Hform & _) HRnil.
  assert (Hall : forall s, In s steps0 -> exists n, M !! sid s = Some n).
  { intros s Hs. destruct (M !! sid s) as [n|] eqn:E; [exists n; reflexivity|].
    exfalso. assert (Hin : In s R).
    { rewrite HR. apply filter_In. split; [exact Hs|]. apply unlevelled_iff; assumption. }
    rewrite HRnil in Hin. destruct Hin. }
  set (lvl := fun k => default 0 (M !! k)).
  assert (Hedge : forall a b, depEdge steps0 a b -> In b (map sid steps0) -> lvl b < lvl a).
  { intros a b (s & Hs & <- & Hb) _. destruct (Hall s Hs) as [n Hn].
    destruct (Hform s n Hs Hn) as [Hf _].
    pose proof (list_max_le (map (fun d => default 0 (M !! d)) (deps s))
                  (list_max (map (fun d => default 0 (M !! d)) (deps s)))) as [H _].
    specialize (H (le_n _)). rewrite List.Forall_forall in H.
    specialize (H _ (in_map _ _ _ Hb)). cbv beta in H.
    unfold lvl. rewrite Hn. simpl. lia. }
  assert (Hpath : forall a b, clos_trans string (depEdge steps0) a b ->
                    In b (map sid steps0) -> lvl b < lvl a).
  { intros a b Hab. apply clos_trans_tn1_iff in Hab.
    induction Hab as [b Hab|b z Hbz Hab IH]; intros Hb.
    - apply Hedge; assumption.
    - pose proof (Hedge _ _ Hbz Hb). pose proof (IH (depEdge_source _ _ Hbz)). lia. }
  intros a Ha.
  assert (Hid : In a (map sid steps0)).
  { pose proof (proj1 (clos_trans_t1n_iff _ _ a a) Ha) as Ha1.
    inversion Ha1 as [b Hab|b z Hab _]; subst; eapply depEdge_source; eassumption. }
  pose proof (Hpath a a Ha Hid). lia.
Qed.
End Leveling.

Section ValidLeveling.
Variable cl : Checklist.
Hypothesis Hvalid : checkStepIDs cl = true.

Lemma valid_fixpoint :
  exists c, levelInv (steps cl) (cycles (steps cl)) c (calculateLevels (steps cl) 1 ∅)
            /\ nextLevel (cycles (steps cl)) (calculateLevels (steps cl) 1 ∅) = [].
Proof.
  destruct (checkStepIDs_sound cl Hvalid) as (Hnd & Hnp & Hdeps).
  destruct (calculateLevels_fixpoint (steps cl) Hnd Hnp) as (R & c & Hinv & Hnl).
  assert (HR : R = cycles (steps cl)) by (destruct Hinv as (_ & HR & _); exact HR).
  subst R. exists c. split; assumption.
Qed.

Lemma cycles_nil_acyclic : cycles (steps cl) = [] -> acyclic (steps cl).
Proof.
  intros Hnil. destruct (checkStepIDs_sound cl Hvalid) as (Hnd & Hnp & Hdeps).
  destruct valid_fixpoint as (c & Hinv & _).
  exact (levelled_acyclic (steps cl) Hnp _ c _ Hinv Hnil).
Qed.

Lemma acyclic_cycles_nil : acyclic (steps cl) -> cycles (steps cl) = [].
Proof.
  intros Hacyc. destruct (checkStepIDs_sound cl Hvalid) as (Hnd & Hnp & Hdeps).
  destruct valid_fixpoint as (c & Hinv & Hnl).
  destruct (cycles (steps cl)) as [|s R] eqn:E; [reflexivity|].
  exfalso. rewrite <- E in Hinv, Hnl.
  destruct (stuck_cycle (steps cl) Hnp Hdeps _ c _ Hinv Hnl ltac:(rewrite E; discriminate))
    as (a & Ha).
  exact (Hacyc a Ha).
Qed.

Lemma cycles_unlevelled :
  cycles (steps cl) =
    List.filter (fun s => match calculateLevels (steps cl) 1 ∅ !! sid s with
                          | Some _ => false | None => true end) (steps cl).
Proof.
  destruct (checkStepIDs_sound cl Hvalid) as (Hnd & Hnp & Hdeps).
  unfold cycles. apply filter_ext_in. intros s Hs.
  destruct (calculateLevels (steps cl) 1 ∅ !! sid s) eqn:E.
  - destruct (unlevelled _ s) eqn:U; [|reflexivity].
    apply (unlevelled_iff (steps cl) Hnp _ s Hs) in U. congruence.
  - apply (unlevelled_iff (steps cl) Hnp _ s Hs). exact E.
Qed.
End ValidLeveling.

(** ** C2: cycle detection *)

(** C2 (cycles): on the 7-step graph a:[], b:[a], c:[b], d:[a], e:[d,f],
    f:[d,g], g:[d,e] [cycles] returns e, f, g in that order; for every
    checklist that passes [checkStepIDs], [cycles] returns, in input order,
    exactly the steps that receive no level from [calculateLevels], and it
    returns the empty sequence iff the dependency graph is a DAG. *)
Theorem cycles_spec :
  map sid (cycles graph7) = ["e"; "f"; "g"]
  /\ forall cl : Checklist, checkStepIDs cl = true ->
       cycles (steps cl) =
         List.filter (fun s => match calculateLevels (steps cl) 1 ∅ !! sid s with
                               | Some _ => false | None => true end) (steps cl)
       /\ (cycles (steps cl) = [] <-> acyclic (steps cl)).
Proof.
  split; [reflexivity|].
  intros cl Hvalid. split; [apply cycles_unlevelled; exact Hvalid|].
  split; [apply cycles_nil_acyclic | apply acyclic_cycles_nil]; exact Hvalid.
Qed.

(** ** C7: levels *)

(** C7 (calculateLevels): for every checklist that passes [checkStepIDs]
    and is acyclic, every step receives a level; a step without
    dependencies has level 1 and every step has level
    1 + the maximum level of its direct dependencies. *)
Theorem calculateLevels_levels (cl : Checklist) :
  checkStepIDs cl = true -> acyclic (steps cl) ->
  forall s, In s (steps cl) ->
    calculateLevels (steps cl) 1 ∅ !! sid s =
      Some (1 + list_max (map (fun d => default 0 (calculateLevels (steps cl) 1 ∅ !! d)) (deps s)))
    /\ (deps s = [] -> calculateLevels (steps cl) 1 ∅ !! sid s = Some 1).
Proof.
  intros Hvalid Hacyc s Hs.
  destruct (checkStepIDs_sound cl Hvalid) as (Hnd & Hnp & Hdeps).
  pose proof (acyclic_cycles_nil cl Hvalid Hacyc) as Hnil.
  destruct (valid_fixpoint cl Hvalid) as (c & Hinv & _).
  destruct Hinv as (_ & HR & _ & Hform & _).
  destruct (calculateLevels (steps cl) 1 ∅ !! sid s) as [n|] eqn:E.
  - destruct (Hform s n Hs E) as [Hf _]. rewrite <- Hf.
    split; [reflexivity|]. intros Hd. rewrite Hf, Hd. reflexivity.
  - exfalso. assert (Hin : In s (cycles (steps cl))).
    { rewrite HR. apply filter_In. split; [exact Hs|].
      apply (unlevelled_iff (steps cl) Hnp _ s Hs). exact E. }
    rewrite Hnil in Hin. destruct Hin.
Qed.

Lemma cycles_spec_witness :
  checkStepIDs (mkList (chain3 None None None)) = true
  /\ acyclic (steps (mkList (chain3 None None None))).
Proof.
  split; [reflexivity|].
  apply (proj2 cycles_spec (mkList (chain3 None None None)) eq_refl).
  vm_compute. reflexivity.
Defined.

Lemma calculateLevels_levels_witness :
  calculateLevels (chain3 None None None) 1 ∅ !! "c" = Some 3.
Proof.
  pose proof (calculateLevels_levels (mkList (chain3 None None None)) eq_refl
                (cycles_nil_acyclic (mkList (chain3 None None None)) eq_refl
                   ltac:(vm_compute; reflexivity))
                (manualStep "c" ["b"] None) ltac:(simpl; tauto)) as [H _].
  exact H.
Defined.

(** ** C5: chain-ID mismatch *)

Lemma markInFlight_other (ctx : ExecutionContext) (id k : string) :
  k <> id -> markInFlight ctx id !! k = ctx !! k.
Proof.
  intros Hk. unfold markInFlight, js_set.
  destruct (js_is_undefined _); [|reflexivity].
  destruct (String.eqb id "__proto__"); [reflexivity|].
  apply lookup_insert_ne. congruence.
Qed.

(** C5 (completeViewStep, completeMethodStep): when the chain client
    reports a chain id whose decimal form differs from the step's
    [chainID], the View and the Method action throw after the single
    [getChainId] request, before any block query, call or send; the step is
    returned untouched (no result field written) and the context is the
    input context with only the in-flight marker of the step's own id,
    every other key keeping its entry. *)
Theorem chain_mismatch_aborts :
  (forall ctx step w blockNumber,
     chainIDString w <> view_chainID step ->
     completeViewStep ctx step w blockNumber
       = Threw (markInFlight ctx (stepID (view_base step))) step [EvGetChainId])
  /\ (forall ctx step sender w userTxConfig,
        chainIDString w <> method_chainID step ->
        completeMethodStep ctx step sender w userTxConfig
          = Threw (markInFlight ctx (stepID (method_base step))) step [EvGetChainId])
  /\ (forall ctx id k, k <> id -> markInFlight ctx id !! k = ctx !! k).
Proof.
  split; [|split].
  - intros ctx step w bn Hne. unfold completeViewStep.
    apply String.eqb_neq in Hne. rewrite Hne. reflexivity.
  - intros ctx step sender w o Hne. unfold completeMethodStep.
    apply String.eqb_neq in Hne. rewrite Hne. reflexivity.
  - intros ctx id k Hk. apply markInFlight_other, Hk.
Qed.

Lemma chain_mismatch_aborts_witness :
  completeViewStep ∅ (viewStep "v" "5" ["{{a.value}}"]) web3_chain1 "latest"
    = Threw (markInFlight ∅ "v") (viewStep "v" "5" ["{{a.value}}"]) [EvGetChainId]
  /\ completeMethodStep ∅ (methodStep "m" "5" []) "0xsender" web3_chain1 None
    = Threw (markInFlight ∅ "m") (methodStep "m" "5" []) [EvGetChainId].
Proof.
  split.
  - apply (proj1 chain_mismatch_aborts). vm_compute. discriminate.
  - apply (proj1 (proj2 chain_mismatch_aborts)). vm_compute. discriminate.
Defined.

(** ** C6: terminal context entries against the mutated step *)

(** C6 (completeRawStep, completeMethodStep): the terminal context entry
    does not always equal what [generateExecutionContext] derives from the
    mutated step.  A Raw action on chain 1 whose transaction hashes to
    ["0xabc"] records the step with txHash ["0xabc"] and success true, but
    writes the context entry [{success: true, executing: false}] with no
    value, while [generateExecutionContext] derives value ["0xabc"].  A
    Method action writes [{success: true, value: output, executing: false}]
    but leaves the step's success unset; once the transaction hash arrives
    the step is complete and [generateExecutionContext] derives success
    false from it. *)
Theorem completer_entry_disagrees :
  (match completeRawStep ∅ (rawStep "r" [] "1" None None) "0xsender" web3_chain1 None with
   | Returned ctx step' _ =>
       ctx !! "r" = Some (mkResult (Some true) None (Some false))
       /\ generateExecutionContext (mkList [Raw step']) !! "r"
            = Some (mkResult (Some true) (Some (AStr "0xabc")) (Some false))
   | _ => False
   end)
  /\ (match completeMethodStep ∅ (methodStep "m" "1" []) "0xsender" web3_chain1 None with
      | Returned ctx step' _ =>
          ctx !! "m" = Some (mkResult (Some true) None (Some false))
          /\ generateExecutionContext (mkList [Method (methodOnTransactionHash step' "0xabc")]) !! "m"
               = Some (mkResult (Some false) None (Some false))
      | _ => False
      end).
Proof. vm_compute. split; split; reflexivity. Qed.

(** ** C9: placeholders that do not resolve *)

Lemma hb_render_some (ctx : ExecutionContext) (p : string) :
  is_Some (hb_render ctx p) <-> is_Some (hb_compile p).
Proof.
  unfold hb_render. destruct (hb_compile p); split; intros [x Hx]; try discriminate;
    eexists; reflexivity.
Qed.

Lemma renderParams_some (ctx : ExecutionContext) (ps : list string) :
  is_Some (renderParams ctx ps) <-> List.Forall (fun p => is_Some (hb_compile p)) ps.
Proof.
  induction ps as [|p ps IH]; simpl.
  - split; [constructor | intros _; eexists; reflexivity].
  - rewrite List.Forall_cons_iff, <- IH, <- (hb_render_some ctx p).
    destruct (hb_render ctx p), (renderParams ctx ps); simpl;
      split; intros H; try destruct H as [H1 H2]; try destruct H as [x Hx];
      try discriminate; try (split; eexists; reflexivity); try (eexists; reflexivity);
      try (destruct H1; discriminate); try (destruct H2; discriminate).
Qed.

(** A template naming a missing step renders its values as [""]. *)
Lemma unresolved_placeholder_is_empty :
  (exists ctx' step',
     completeViewStep ∅ (viewStep "v" "1" ["{{missing.value}}"]) web3_chain1 "100"
       = Returned ctx' step'
           [EvGetChainId; EvGetBlock "100";
            EvCall "0xA0b86991c6218b36c1d19D4a2e9Eb0cE3606eB48" "decimals()" [""] 100])
  /\ (exists ctx' step',
        completeMethodStep ∅ (methodStep "m" "1" ["{{missing.value}}"]) "0xsender"
          web3_chain1 None
          = Returned ctx' step'
              [EvGetChainId;
               EvSend "0xA0b86991c6218b36c1d19D4a2e9Eb0cE3606eB48" "transfer(address,uint256)"
                 [""] (mkOpts (Some "0xsender") (Some "0") None None)]).
Proof. vm_compute. split; do 2 eexists; reflexivity. Qed.

(** C9 (completeViewStep, completeMethodStep), as the code behaves: no
    template error exists.  A mustache whose step id is absent from the
    execution context, or whose field is not one of success, value and
    executing, renders as the empty string; whether the parameters render
    at all depends only on the templates, never on the context; and a View
    or Method action on the right chain whose parameters render goes on to
    the contract call or send with the rendered arguments. *)
Theorem unresolved_placeholder_interpolates_empty :
  (forall ctx id field, ctx !! id = None ->
     hb_render_path ctx [id] = "" /\ hb_render_path ctx [id; field] = "")
  /\ (forall ctx id r field, ctx !! id = Some r ->
        ~ In field ["success"; "value"; "executing"] -> hb_render_path ctx [id; field] = "")
  /\ (forall ctx ps, is_Some (renderParams ctx ps) <-> List.Forall (fun p => is_Some (hb_compile p)) ps)
  /\ (forall ctx step w blockNumber args,
        chainIDString w = view_chainID step ->
        renderParams (markInFlight ctx (stepID (view_base step))) (view_params step) = Some args ->
        exists ctx' step',
          completeViewStep ctx step w blockNumber
            = Returned ctx' step'
                [EvGetChainId; EvGetBlock blockNumber;
                 EvCall (view_to step) (view_methodABI step) args
                   (block_number (getBlock w blockNumber))])
  /\ (forall ctx step sender w userTxConfig args,
        chainIDString w = method_chainID step ->
        renderParams (markInFlight ctx (stepID (method_base step))) (method_params step) = Some args ->
        exists ctx' step' txConfig,
          completeMethodStep ctx step sender w userTxConfig
            = Returned ctx' step'
                [EvGetChainId; EvSend (method_to step) (method_methodABI step) args txConfig]).
Proof.
  split; [|split; [|split; [|split]]].
  - intros ctx id field Hn. simpl. rewrite Hn. split; reflexivity.
  - intros ctx id r field Hr Hf. simpl. rewrite Hr.
    destruct (String.eqb_spec field "success"); [subst; simpl in Hf; tauto|].
    destruct (String.eqb_spec field "value"); [subst; simpl in Hf; tauto|].
    destruct (String.eqb_spec field "executing"); [subst; simpl in Hf; tauto|].
    reflexivity.
  - intros ctx ps. apply renderParams_some.
  - intros ctx step w bn args Heq Hr. unfold completeViewStep.
    rewrite Heq, String.eqb_refl. simpl. rewrite Hr. do 2 eexists. reflexivity.
  - intros ctx step sender w o args Heq Hr. unfold completeMethodStep.
    rewrite Heq, String.eqb_refl. simpl. rewrite Hr. do 3 eexists. reflexivity.
Qed.

Lemma unresolved_placeholder_interpolates_empty_witness :
  hb_render_path ∅ ["missing"; "value"] = ""
  /\ hb_render_path (<["a" := mkResult (Some true) None (Some false)]> ∅) ["a"; "output"] = ""
  /\ (exists ctx' step',
        completeViewStep ∅ (viewStep "v" "1" ["{{missing.value}}"]) web3_chain1 "100"
          = Returned ctx' step'
              [EvGetChainId; EvGetBlock "100";
               EvCall "0xA0b86991c6218b36c1d19D4a2e9Eb0cE3606eB48" "decimals()" [""] 100])
  /\ (exists ctx' step' txConfig,
        completeMethodStep ∅ (methodStep "m" "1" ["{{missing.value}}"]) "0xsender"
          web3_chain1 None
          = Returned ctx' step'
              [EvGetChainId;
               EvSend "0xA0b86991c6218b36c1d19D4a2e9Eb0cE3606eB48" "transfer(address,uint256)"
                 [""] txConfig]).
Proof.
  split; [|split; [|split]].
  - apply (proj1 unresolved_placeholder_interpolates_empty ∅ "missing" "value").
    reflexivity.
  - apply (proj1 (proj2 unresolved_placeholder_interpolates_empty)
             _ "a" (mkResult (Some true) None (Some false)) "output").
    + vm_compute. reflexivity.
    + simpl. intros [H|[H|[H|H]]]; try discriminate H; exact H.
  - apply (proj1 (proj2 (proj2 (proj2 unresolved_placeholder_interpolates_empty))));
      vm_compute; reflexivity.
  - apply (proj2 (proj2 (proj2 (proj2 unresolved_placeholder_interpolates_empty))));
      vm_compute; reflexivity.
Defined.

(** ** C3: the execution context built from a checklist *)

Lemma ctx_fold_notin (f : Step -> StepResult) (L : list Step) (m : ExecutionContext) (k : string) :
  ~ In k (map sid L) ->
  fold_left (fun context step => js_set context (sid step) (f step)) L m !! k = m !! k.
Proof.
  revert m. induction L as [|s L IH]; intros m Hk; simpl in *; [reflexivity|].
  rewrite IH by tauto. unfold js_set.
  destruct (String.eqb (sid s) "__proto__"); [reflexivity|].
  apply lookup_insert_ne. intros Heq. apply Hk. left. exact Heq.
Qed.

Lemma ctx_fold_in (f : Step -> StepResult) (L : list Step) (m : ExecutionContext) (s : Step) :
  NoDup (map sid L) -> sid s <> "__proto__" -> In s L ->
  fold_left (fun context step => js_set context (sid step) (f step)) L m !! sid s = Some (f s).
Proof.
  revert m. induction L as [|t L IH]; intros m Hnd Hp Hs; simpl in *; [destruct Hs|].
  inversion Hnd as [|x l Hx Hnd']; subst.
  destruct Hs as [<-|Hs].
  - rewrite ctx_fold_notin by (intros H; apply Hx; apply list_elem_of_In; exact H).
    unfold js_set. apply String.eqb_neq in Hp. rewrite Hp. apply lookup_insert_eq.
  - apply IH; assumption.
Qed.

Lemma NoDup_map_filter {A B} (g : A -> B) (h : A -> bool) (l : list A) :
  NoDup (map g l) -> NoDup (map g (List.filter h l)).
Proof.
  induction l as [|a l IH]; simpl; intros Hnd; [exact Hnd|].
  inversion Hnd as [|x l' Hx Hnd']; subst.
  destruct (h a); simpl; [|apply IH, Hnd'].
  constructor; [|apply IH, Hnd'].
  intros Hin. apply Hx. apply list_elem_of_In in Hin. apply list_elem_of_In.
  apply in_map_iff in Hin as (b & <- & Hb). apply filter_In in Hb as [Hb _].
  apply in_map, Hb.
Qed.

(** Two complete steps sharing the id ["a"] leave a single entry, built from
    the later one: the earlier step's value ["1"] is not in the context. *)
Lemma generateExecutionContext_duplicate_ids :
  generateExecutionContext
    (mkList [manualStep "a" [] (Some (AStr "1")); manualStep "a" [] (Some (AStr "2"))]) !! "a"
  = Some (mkResult (Some true) (Some (AStr "2")) (Some false)).
Proof. vm_compute. reflexivity. Qed.

Lemma ctx_fold_last (f : Step -> StepResult) (L : list Step) (m : ExecutionContext) (k : string) :
  (forall s, In s L -> sid s <> "__proto__") ->
  fold_left (fun context step => js_set context (sid step) (f step)) L m !! k
  = match List.find (fun s => String.eqb (sid s) k) (rev L) with
    | Some s => Some (f s)
    | None => m !! k
    end.
Proof.
  induction L as [|s L IH] using rev_ind; intros Hp; [reflexivity|].
  rewrite fold_left_app, rev_app_distr. simpl.
  assert (Hs : sid s <> "__proto__") by (apply Hp, in_or_app; right; left; reflexivity).
  unfold js_set. destruct (String.eqb_spec (sid s) "__proto__") as [|_]; [contradiction|].
  destruct (String.eqb_spec (sid s) k) as [<-|Hne].
  - apply lookup_insert_eq.
  - rewrite lookup_insert_ne by exact Hne. apply IH.
    intros t Ht. apply Hp, in_or_app. left. exact Ht.
Qed.

Lemma rev_filter {A} (f : A -> bool) (l : list A) :
  rev (List.filter f l) = List.filter f (rev l).
Proof.
  induction l as [|a l IH]; simpl; [reflexivity|].
  rewrite List.filter_app. simpl. destruct (f a); simpl; rewrite IH; [reflexivity|].
  rewrite app_nil_r. reflexivity.
Qed.

Lemma find_filter {A} (p q : A -> bool) (l : list A) :
  List.find p (List.filter q l) = List.find (fun x => q x && p x) l.
Proof.
  induction l as [|a l IH]; simpl; [reflexivity|].
  destruct (q a); simpl; [destruct (p a)|]; first [reflexivity | exact IH].
Qed.

(** C3 (generateExecutionContext), for checklists none of whose stepIDs is
    ["__proto__"] (every checklist that passes [checkStepIDs] is one): the
    entry under a key [k] is [stepResultOf] of the last complete step with
    stepID [k] (Manual: success true and its value; View: success true and
    its output; Raw: its success, false if absent, and its txHash; Method:
    its success, false if absent, and its output), and there is none when
    no complete step has that stepID; executing is false in every entry.
    When the stepIDs are also distinct, each complete step has its entry,
    every entry is the entry of a complete step, and no incomplete step has
    an entry.  The result depends on the checklist's steps alone, so two
    calls on the same checklist state give the same context. *)
Theorem generateExecutionContext_entries (cl : Checklist) :
  ~ In "__proto__" (map sid (steps cl)) ->
  (forall k, generateExecutionContext cl !! k
     = option_map stepResultOf
         (List.find (fun s => isStepComplete s && String.eqb (sid s) k) (rev (steps cl))))
  /\ (forall k r, generateExecutionContext cl !! k = Some r -> executing r = Some false)
  /\ (NoDup (map sid (steps cl)) ->
      (forall s, In s (steps cl) -> isStepComplete s = true ->
         generateExecutionContext cl !! sid s = Some (stepResultOf s))
      /\ (forall k r, generateExecutionContext cl !! k = Some r ->
            exists s, In s (steps cl) /\ isStepComplete s = true /\ sid s = k
                      /\ r = stepResultOf s /\ executing r = Some false)
      /\ (forall s, In s (steps cl) -> isStepComplete s = false ->
            generateExecutionContext cl !! sid s = None))
  /\ (forall cl', steps cl' = steps cl -> generateExecutionContext cl' = generateExecutionContext cl).
Proof.
  intros Hp.
  assert (Hlast : forall k, generateExecutionContext cl !! k
            = option_map stepResultOf
                (List.find (fun s => isStepComplete s && String.eqb (sid s) k) (rev (steps cl)))).
  { intros k. unfold generateExecutionContext. rewrite ctx_fold_last.
    - rewrite rev_filter, find_filter.
      destruct (List.find _ (rev (steps cl))); reflexivity.
    - intros s Hs He. apply filter_In in Hs as [Hs _]. apply Hp. rewrite <- He. apply in_map, Hs. }
  split; [exact Hlast|]. split; [|split].
  - intros k r Hk. rewrite Hlast in Hk.
    destruct (List.find _ _) as [s|]; [|discriminate]. injection Hk as <-. destruct s; reflexivity.
  - intros Hnd.
    assert (Hnd' : NoDup (map sid (List.filter isStepComplete (steps cl))))
      by (apply NoDup_map_filter, Hnd).
    assert (Hin : forall s, In s (steps cl) -> isStepComplete s = true ->
              generateExecutionContext cl !! sid s = Some (stepResultOf s)).
    { intros s Hs Hc. unfold generateExecutionContext. apply ctx_fold_in.
      - exact Hnd'.
      - intros He. apply Hp. rewrite <- He. apply in_map, Hs.
      - apply filter_In. split; assumption. }
    split; [exact Hin|split].
    + intros k r Hk.
      destruct (in_dec string_dec k (map sid (List.filter isStepComplete (steps cl)))) as [Hk'|Hk'].
      * apply in_map_iff in Hk' as (s & <- & Hs). apply filter_In in Hs as [Hs Hc].
        rewrite (Hin s Hs Hc) in Hk. injection Hk as <-.
        exists s. repeat split; try assumption. destruct s; reflexivity.
      * unfold generateExecutionContext in Hk. rewrite ctx_fold_notin in Hk by exact Hk'.
        discriminate.
    + intros s Hs Hc. unfold generateExecutionContext. rewrite ctx_fold_notin; [reflexivity|].
      intros Hk. apply in_map_iff in Hk as (t & Ht & Ht').
      apply filter_In in Ht' as [Ht0 Htc].
      rewrite (NoDup_map_inj sid (steps cl) t s Hnd Ht0 Hs Ht) in Htc. congruence.
  - intros cl' E. unfold generateExecutionContext. rewrite E. reflexivity.
Qed.

Lemma generateExecutionContext_entries_witness :
  generateExecutionContext
    (mkList [manualStep "a" [] (Some (AStr "1")); manualStep "a" [] (Some (AStr "2"))]) !! "a"
    = Some (mkResult (Some true) (Some (AStr "2")) (Some false))
  /\ generateExecutionContext (mkList (chain3 (Some (AStr "1")) None None)) !! "a"
    = Some (mkResult (Some true) (Some (AStr "1")) (Some false))
  /\ generateExecutionContext (mkList (chain3 (Some (AStr "1")) None None)) !! "b" = None.
Proof.
  assert (Hp1 : ~ In "__proto__" (map sid (steps (mkList [manualStep "a" [] (Some (AStr "1"));
                                                         manualStep "a" [] (Some (AStr "2"))])))).
  { simpl. intuition discriminate. }
  assert (Hnd : NoDup (map sid (steps (mkList (chain3 (Some (AStr "1")) None None))))).
  { simpl. apply (bool_decide_unpack (NoDup _)). vm_compute. reflexivity. }
  assert (Hp : ~ In "__proto__" (map sid (steps (mkList (chain3 (Some (AStr "1")) None None))))).
  { simpl. intuition discriminate. }
  split.
  - rewrite (proj1 (generateExecutionContext_entries _ Hp1) "a"). vm_compute. reflexivity.
  - destruct (proj1 (proj2 (proj2 (generateExecutionContext_entries _ Hp))) Hnd) as (H1 & _ & H3).
    split.
    + apply (H1 (manualStep "a" [] (Some (AStr "1")))); [simpl; tauto | reflexivity].
    + apply (H3 (manualStep "b" ["a"] None)); [simpl; tauto | reflexivity].
Defined.

(** ** C10: readiness ignores the success field *)

Lemma filter_map_comm {A} (f : A -> bool) (g : A -> A) (l : list A) :
  List.filter f (map g l) = map g (List.filter (fun x => f (g x)) l).
Proof.
  induction l as [|a l IH]; simpl; [reflexivity|].
  destruct (f (g a)); simpl; rewrite IH; reflexivity.
Qed.

Section StepRelabel.
(** A map on steps that keeps every field [nextSteps] reads. *)
Variable g : Step -> Step.
Hypothesis Hsid : forall s, sid (g s) = sid s.
Hypothesis Hdeps : forall s, deps (g s) = deps s.
Hypothesis Hcomplete : forall s, isStepComplete (g s) = isStepComplete s.

Lemma nextLevel_relabel (R : list Step) (M : gmap string nat) :
  nextLevel (map g R) M = map g (nextLevel R M).
Proof.
  unfold nextLevel. rewrite filter_map_comm. f_equal.
  apply filter_ext. intros s. unfold unlevelled. rewrite Hsid, Hdeps. reflexivity.
Qed.

Lemma assignLevel_relabel (c : nat) (LS : list Step) (M : gmap string nat) :
  assignLevel c (map g LS) M = assignLevel c LS M.
Proof.
  unfold assignLevel. revert M. induction LS as [|s LS IH]; intros M; simpl; [reflexivity|].
  rewrite Hsid. apply IH.
Qed.

Lemma calculateLevels_fuel_relabel (fuel : nat) (R : list Step) (c : nat) (M : gmap string nat) :
  calculateLevels_fuel fuel (map g R) c M = calculateLevels_fuel fuel R c M.
Proof.
  revert R c M. induction fuel as [|fuel IH]; intros R c M; [reflexivity|].
  cbn [calculateLevels_fuel]. rewrite nextLevel_relabel.
  destruct (nextLevel R M) as [|s LS] eqn:E; [reflexivity|].
  cbn [map]. rewrite (assignLevel_relabel c (s :: LS)).
  rewrite filter_map_comm.
  rewrite (filter_ext (fun x => unlevelled _ (g x)) (unlevelled _))
    by (intros x; unfold unlevelled; rewrite Hsid; reflexivity).
  apply IH.
Qed.

Lemma calculateLevels_relabel (L : list Step) :
  calculateLevels (map g L) 1 ∅ = calculateLevels L 1 ∅.
Proof.
  unfold calculateLevels. rewrite length_map. apply calculateLevels_fuel_relabel.
Qed.

Lemma sortStable_relabel (lv : gmap string nat) (L : list Step) :
  sortStable (levelCompare lv) (map g L) = map g (sortStable (levelCompare lv) L).
Proof.
  assert (Hcmp : forall a b, levelCompare lv (g a) (g b) = levelCompare lv a b)
    by (intros a b; unfold levelCompare; rewrite !Hsid; reflexivity).
  assert (Hins : forall x acc, insertStable (levelCompare lv) (g x) (map g acc)
                               = map g (insertStable (levelCompare lv) x acc)).
  { intros x acc. induction acc as [|y acc IH]; simpl; [reflexivity|].
    rewrite Hcmp. destruct (levelCompare lv y x); simpl; rewrite ?IH; reflexivity. }
  unfold sortStable.
  assert (Hfold : forall acc,
            fold_left (fun acc x => insertStable (levelCompare lv) x acc) (map g L) (map g acc)
            = map g (fold_left (fun acc x => insertStable (levelCompare lv) x acc) L acc)).
  { induction L as [|x L IH]; intros acc; simpl; [reflexivity|].
    rewrite Hins. apply IH. }
  apply (Hfold []).
Qed.

Lemma completeSteps_relabel (L : list Step) (m : gmap string Step) :
  fold_left (fun m step => if isStepComplete step then js_set m (sid step) step else m)
    (map g L) (g <$> m)
  = g <$> fold_left (fun m step => if isStepComplete step then js_set m (sid step) step else m)
            L m.
Proof.
  revert m. induction L as [|s L IH]; intros m; simpl; [reflexivity|].
  rewrite Hcomplete, Hsid. destruct (isStepComplete s); [|apply IH].
  rewrite <- IH. f_equal. unfold js_set.
  destruct (String.eqb (sid s) "__proto__"); [reflexivity|].
  rewrite fmap_insert. reflexivity.
Qed.

Lemma js_get_fmap_undefined (m : gmap string Step) (k : string) :
  js_is_undefined (js_get (g <$> m) k) = js_is_undefined (js_get m k).
Proof.
  unfold js_get. rewrite lookup_fmap. destruct (m !! k); reflexivity.
Qed.

Lemma tdStep_relabel (td : gmap string (list tdep)) (s : Step) :
  tdStep td (g s) = tdStep td s.
Proof. unfold tdStep. rewrite Hsid, Hdeps. reflexivity. Qed.

Lemma td_fold_relabel (L : list Step) (td : gmap string (list tdep)) :
  fold_left tdStep (map g L) td = fold_left tdStep L td.
Proof.
  revert td. induction L as [|s L IH]; intros td; simpl; [reflexivity|].
  rewrite tdStep_relabel. apply IH.
Qed.

Lemma nextSteps_relabel (cl : Checklist) :
  nextSteps (mkChecklist (requester cl) (cl_description cl) (map g (steps cl)) (complete cl))
  = map g (nextSteps cl).
Proof.
  unfold nextSteps. cbn [steps].
  rewrite calculateLevels_relabel, sortStable_relabel.
  set (lv := calculateLevels (steps cl) 1 ∅).
  set (sorted := sortStable (levelCompare lv) (steps cl)).
  rewrite td_fold_relabel.
  assert (HC : forall L,
     fold_left (fun m step => if isStepComplete step then js_set m (sid step) step else m)
       (map g L) ∅
     = g <$> fold_left (fun m step => if isStepComplete step then js_set m (sid step) step else m)
               L ∅).
  { intros L. rewrite <- completeSteps_relabel, fmap_empty. reflexivity. }
  rewrite HC.
  rewrite (filter_map_comm (fun step => negb (isStepComplete step))).
  rewrite filter_map_comm. f_equal.
  rewrite (filter_ext (fun x => negb (isStepComplete (g x))) (fun x => negb (isStepComplete x)))
    by (intros x; rewrite Hcomplete; reflexivity).
  apply filter_ext. intros s. rewrite Hsid.
  generalize (default [] (fold_left tdStep sorted ∅ !! sid s)).
  intros l. induction l as [|d l IH]; simpl; [reflexivity|].
  unfold depComplete at 1 3. rewrite js_get_fmap_undefined, IH. reflexivity.
Qed.
End StepRelabel.

Lemma setSuccess_sid (ok : option bool) (s : Step) : sid (setSuccess ok s) = sid s.
Proof. destruct s; reflexivity. Qed.

Lemma setSuccess_deps (ok : option bool) (s : Step) : deps (setSuccess ok s) = deps s.
Proof. destruct s; reflexivity. Qed.

Lemma setSuccess_complete (ok : option bool) (s : Step) :
  isStepComplete (setSuccess ok s) = isStepComplete s.
Proof. destruct s; reflexivity. Qed.

(** C10 (nextSteps): the recorded success of Raw and Method steps plays no
    part in readiness.  Overwriting the success field of any steps of any
    checklist with any values (true, false or absent) changes the result of
    [nextSteps] only by the same overwrite; so a step whose dependency is a
    Raw or Method step with txHash set and success false is returned exactly
    when it would be with success true.  Concretely, a manual step ["b"]
    depending on a failed Raw step ["r"], or on a failed Method step ["m"],
    is returned. *)
Theorem nextSteps_ignores_success :
  (forall (cl : Checklist) (okf : Step -> option bool),
     nextSteps (mkChecklist (requester cl) (cl_description cl)
                  (map (fun s => setSuccess (okf s) s) (steps cl)) (complete cl))
     = map (fun s => setSuccess (okf s) s) (nextSteps cl))
  /\ map sid (nextSteps (mkList [Raw (rawStep "r" [] "1" (Some "0xabc") (Some false));
                                 manualStep "b" ["r"] None])) = ["b"]
  /\ map sid (nextSteps (mkList [Method (mkMethod (mkBase "friend" "m" None []) "1"
                                          "0xA0b86991c6218b36c1d19D4a2e9Eb0cE3606eB48"
                                          "transfer(address,uint256)" [] None
                                          (Some "0xabc") (Some false) None);
                                 manualStep "b" ["m"] None])) = ["b"].
Proof.
  split; [|split; vm_compute; reflexivity].
  intros cl okf.
  apply (nextSteps_relabel (fun s => setSuccess (okf s) s)).
  - intros s. apply setSuccess_sid.
  - intros s. apply setSuccess_deps.
  - intros s. apply setSuccess_complete.
Qed.

(** ** C1: readiness *)

(** C1 (nextSteps): on the chain a <- b <- c, [nextSteps] returns only a
    with no completions, only b once a is complete, and only a when only b
    is complete.  But readiness is not "every transitive dependency is a
    complete step" on every checklist that passes [checkStepIDs] and is
    acyclic: with a complete step named ["[object Object]"] and an
    incomplete step ["a"] whose only dependency ["__proto__"] is the id of
    no step, the checklist passes [checkStepIDs], is acyclic, and
    [nextSteps] returns ["a"].  The lookup of ["__proto__"] in the plain
    object of transitive dependencies yields [Object.prototype], which
    [concat] appends as a value, and that value used as a key of the
    completed steps reads as ["[object Object]"]. *)
Theorem nextSteps_prototype_dependency :
  map sid (nextSteps (mkList (chain3 None None None))) = ["a"]
  /\ map sid (nextSteps (mkList (chain3 (Some (AStr "done")) None None))) = ["b"]
  /\ map sid (nextSteps (mkList (chain3 None (Some (AStr "done")) None))) = ["a"]
  /\ checkStepIDs (mkList [manualStep "[object Object]" [] (Some (AStr "done"));
                           manualStep "a" ["__proto__"] None]) = true
  /\ acyclic [manualStep "[object Object]" [] (Some (AStr "done"));
              manualStep "a" ["__proto__"] None]
  /\ ~ In "__proto__" (map sid [manualStep "[object Object]" [] (Some (AStr "done"));
                                manualStep "a" ["__proto__"] None])
  /\ isStepComplete (manualStep "a" ["__proto__"] None) = false
  /\ map sid (nextSteps (mkList [manualStep "[object Object]" [] (Some (AStr "done"));
                                 manualStep "a" ["__proto__"] None])) = ["a"].
Proof.
  split; [vm_compute; reflexivity|].
  split; [vm_compute; reflexivity|].
  split; [vm_compute; reflexivity|].
  split; [vm_compute; reflexivity|].
  split.
  { apply (cycles_nil_acyclic (mkList [manualStep "[object Object]" [] (Some (AStr "done"));
                                       manualStep "a" ["__proto__"] None]));
      vm_compute; reflexivity. }
  split; [simpl; intuition discriminate|].
  split; vm_compute; reflexivity.
Qed.

(* ================================================================== *)
(** * Further properties of the completers *)

Lemma js_set_lookup_eq {V} (m : gmap string V) (k : string) (v : V) :
  k <> "__proto__" -> js_set m k v !! k = Some v.
Proof.
  intros Hk. unfold js_set. apply String.eqb_neq in Hk. rewrite Hk. apply lookup_insert_eq.
Qed.

Lemma js_set_lookup_ne {V} (m : gmap string V) (k k' : string) (v : V) :
  k' <> k -> js_set m k v !! k' = m !! k'.
Proof.
  intros Hk. unfold js_set. destruct (String.eqb k "__proto__"); [reflexivity|].
  apply lookup_insert_ne. congruence.
Qed.

(** [completeInputStep]: the action stores the typed value in the step,
    which becomes complete, and writes under the step's ID exactly the entry
    [generateExecutionContext] derives from the updated step; it talks to no
    chain client and leaves every other key of the context as it was. *)
Theorem completeInputStep_agrees (ctx : ExecutionContext) (step : InputStep) (v : string) :
  stepID (in_base step) <> "__proto__" ->
  exists ctx' step',
    completeInputStep ctx step v = Returned ctx' step' []
    /\ in_value step' = Some (AStr v)
    /\ isStepComplete (Manual step') = true
    /\ ctx' !! stepID (in_base step) = Some (stepResultOf (Manual step'))
    /\ forall k, k <> stepID (in_base step) -> ctx' !! k = ctx !! k.
Proof.
  intros Hp. unfold completeInputStep. cbv zeta. do 2 eexists. split; [reflexivity|].
  split; [reflexivity|]. split; [reflexivity|].
  split; [apply js_set_lookup_eq, Hp|].
  intros k Hk. etransitivity; [apply js_set_lookup_ne, Hk | apply markInFlight_other, Hk].
Qed.

Lemma completeInputStep_agrees_witness :
  exists ctx' step',
    completeInputStep ∅ (mkInput (mkBase "friend" "lol" None []) None) "hello"
      = Returned ctx' step' []
    /\ in_value step' = Some (AStr "hello")
    /\ isStepComplete (Manual step') = true
    /\ ctx' !! "lol" = Some (stepResultOf (Manual step'))
    /\ forall k, k <> "lol" -> ctx' !! k = (∅ : ExecutionContext) !! k.
Proof.
  apply (completeInputStep_agrees ∅ (mkInput (mkBase "friend" "lol" None []) None) "hello").
  vm_compute. discriminate.
Defined.

(** [completeViewStep] on the step's chain, with parameters that render:
    the call runs at the number of the block fetched for [blockNumber]; the
    step records the call's result as its output (so it becomes complete),
    [blockNumber] as given and the block's hash, or ["unknown"] when the
    block has no hash or an empty one; the context entry under the step's ID
    is exactly what [generateExecutionContext] derives from the updated
    step, and every other key is unchanged. *)
Theorem completeViewStep_success (ctx : ExecutionContext) (step : ViewStep) (w : Web3)
    (blockNumber : string) (args : list string) :
  stepID (view_base step) <> "__proto__" ->
  chainIDString w = view_chainID step ->
  renderParams (markInFlight ctx (stepID (view_base step))) (view_params step) = Some args ->
  exists ctx' step',
    completeViewStep ctx step w blockNumber
      = Returned ctx' step'
          [EvGetChainId; EvGetBlock blockNumber;
           EvCall (view_to step) (view_methodABI step) args
             (block_number (getBlock w blockNumber))]
    /\ view_output step' = Some (call w (view_to step) (view_methodABI step) args
                                   (block_number (getBlock w blockNumber)))
    /\ view_blockNumber step' = Some blockNumber
    /\ view_blockHash step' = Some (match block_hash (getBlock w blockNumber) with
                                    | Some h => if String.eqb h "" then "unknown" else h
                                    | None => "unknown"
                                    end)
    /\ isStepComplete (View step') = true
    /\ ctx' !! stepID (view_base step) = Some (stepResultOf (View step'))
    /\ forall k, k <> stepID (view_base step) -> ctx' !! k = ctx !! k.
Proof.
  intros Hp Heq Hr. unfold completeViewStep.
  rewrite Heq, String.eqb_refl. simpl negb. cbv iota. rewrite Hr.
  do 2 eexists. split; [reflexivity|].
  do 4 (split; [reflexivity|]).
  split; [apply js_set_lookup_eq, Hp|].
  intros k Hk. etransitivity; [apply js_set_lookup_ne, Hk | apply markInFlight_other, Hk].
Qed.

Lemma completeViewStep_success_witness :
  exists ctx' step',
    completeViewStep ∅ (viewStep "v" "1" []) web3_chain1 "latest"
      = Returned ctx' step'
          [EvGetChainId; EvGetBlock "latest";
           EvCall "0xA0b86991c6218b36c1d19D4a2e9Eb0cE3606eB48" "decimals()" [] 100]
    /\ view_output step' = Some (AStr "6")
    /\ view_blockNumber step' = Some "latest"
    /\ view_blockHash step' = Some "0xb10c"
    /\ isStepComplete (View step') = true
    /\ ctx' !! "v" = Some (stepResultOf (View step'))
    /\ forall k, k <> "v" -> ctx' !! k = (∅ : ExecutionContext) !! k.
Proof.
  apply (completeViewStep_success ∅ (viewStep "v" "1" []) web3_chain1 "latest" []);
    vm_compute; [discriminate | reflexivity | reflexivity].
Defined.


(* ================================================================== *)
(** * Further properties of parameter templates *)

Lemma hb_parse_text (cs acc : list ascii) (fuel : nat) :
  length cs < fuel ->
  (forall c, In c cs -> c <> "{"%char /\ c <> "\"%char /\ c <> "000"%char) ->
  hb_parse_fuel fuel cs acc = Some (text_seg (rev cs ++ acc)).
Proof.
  revert acc fuel. induction cs as [|c cs IH]; intros acc fuel Hf Hc.
  - destruct fuel; [simpl in Hf; lia|]. reflexivity.
  - destruct fuel as [|fuel]; [simpl in Hf; lia|]. simpl in Hf.
    destruct (Hc c (or_introl eq_refl)) as (H1 & H2 & H3).
    assert (Hrest : forall c', In c' cs -> c' <> "{"%char /\ c' <> "\"%char /\ c' <> "000"%char)
      by (intros c' Hc'; apply Hc; right; exact Hc').
    cbn [hb_parse_fuel].
    destruct (Ascii.eqb_spec c "\"); [congruence|].
    destruct (Ascii.eqb_spec c "000"%char); [congruence|]. simpl orb. cbv iota.
    destruct cs as [|d cs'].
    + rewrite IH by (simpl; first [lia | intros ? []]). reflexivity.
    + destruct (Ascii.eqb_spec c "{"); [congruence|]. simpl andb. cbv iota.
      rewrite IH by (simpl in *; first [lia | exact Hrest]).
      simpl. rewrite <- !app_assoc. reflexivity.
Qed.

Lemma string_of_list_ascii_rev_rev (t : string) :
  string_of_list_ascii (rev (rev (list_ascii_of_string t))) = t.
Proof. rewrite rev_involutive. apply string_of_list_ascii_of_string. Qed.

Lemma hb_read_mustache_app (xs ys acc : list ascii) :
  (forall c, In c xs -> c <> "}"%char) ->
  hb_read_mustache (xs ++ "}"%char :: "}"%char :: ys)%list acc = Some ((rev acc ++ xs)%list, ys).
Proof.
  revert acc. induction xs as [|x xs IH]; intros acc Hx; [simpl; rewrite app_nil_r; reflexivity|].
  simpl. destruct (Ascii.eqb_spec x "}"); [exfalso; apply (Hx x); [left|]; auto|].
  simpl andb. destruct (xs ++ _)%list eqn:E; [destruct xs; discriminate|].
  rewrite IH by (intros c Hc; apply Hx; right; exact Hc).
  simpl. rewrite <- app_assoc. reflexivity.
Qed.

Lemma split_dots_nodot (xs cur : list ascii) :
  (forall c, In c xs -> c <> "."%char) -> split_dots xs cur = [(rev cur ++ xs)%list].
Proof.
  revert cur. induction xs as [|x xs IH]; intros cur Hx; [simpl; rewrite app_nil_r; reflexivity|].
  simpl. destruct (Ascii.eqb_spec x "."); [exfalso; apply (Hx x); [left|]; auto|].
  rewrite IH by (intros c Hc; apply Hx; right; exact Hc). simpl. rewrite <- app_assoc. reflexivity.
Qed.

Lemma split_dots_app (xs ys cur : list ascii) :
  (forall c, In c xs -> c <> "."%char) ->
  split_dots (xs ++ "."%char :: ys)%list cur = (rev cur ++ xs)%list :: split_dots ys [].
Proof.
  revert cur. induction xs as [|x xs IH]; intros cur Hx; [simpl; rewrite app_nil_r; reflexivity|].
  simpl. destruct (Ascii.eqb_spec x "."); [exfalso; apply (Hx x); [left|]; auto|].
  rewrite IH by (intros c Hc; apply Hx; right; exact Hc). simpl. rewrite <- app_assoc. reflexivity.
Qed.

Lemma hb_ident_chars (seg : list ascii) (c : ascii) :
  hb_segment_ok seg = true -> In c seg ->
  c <> "}"%char /\ c <> "."%char /\ c <> " "%char.
Proof.
  destruct seg as [|c0 cs]; simpl; [discriminate|].
  intros H Hin. apply andb_prop in H as [H _]. apply andb_prop in H as [H0 Hcs].
  assert (Hid : hb_ident_char c = true).
  { destruct Hin as [<-|Hin].
    - unfold hb_ident_char. rewrite H0. reflexivity.
    - rewrite forallb_forall in Hcs. apply Hcs, Hin. }
  repeat split; intros ->; vm_compute in Hid; discriminate.
Qed.

Lemma list_ascii_of_string_app (s1 s2 : string) :
  list_ascii_of_string (s1 ++ s2) = (list_ascii_of_string s1 ++ list_ascii_of_string s2)%list.
Proof. induction s1 as [|c s1 IH]; simpl; [reflexivity|]. rewrite IH. reflexivity. Qed.

Lemma drop_spaces_keep (c : ascii) (l : list ascii) :
  c <> " "%char -> drop_spaces (c :: l) = c :: l.
Proof. intros Hc. simpl. unfold is_space. destruct (Ascii.eqb_spec c " "); congruence. Qed.

Lemma hb_path_of_value (ids : list ascii) :
  hb_segment_ok ids = true ->
  hb_path_of (ids ++ list_ascii_of_string ".value")%list
    = Some [string_of_list_ascii ids; "value"].
Proof.
  intros Hok. assert (Hch : forall c, In c ids -> c <> "}"%char /\ c <> "."%char /\ c <> " "%char)
    by (intros c; apply hb_ident_chars, Hok).
  assert (Htrim : trim_spaces (ids ++ list_ascii_of_string ".value")%list
                  = (ids ++ list_ascii_of_string ".value")%list).
  { unfold trim_spaces.
    destruct ids as [|c0 cs]; [discriminate|].
    assert (Hc0 : c0 <> " "%char) by (destruct (Hch c0 (or_introl eq_refl)) as (_ & _ & H); exact H).
    cbn [app]. rewrite drop_spaces_keep by exact Hc0.
    assert (Hrev : exists rest, rev (c0 :: cs ++ list_ascii_of_string ".value")%list
                               = "e"%char :: rest).
    { rewrite app_comm_cons, rev_app_distr. eexists. reflexivity. }
    destruct Hrev as [rest Hrest]. rewrite Hrest, drop_spaces_keep by discriminate.
    rewrite <- Hrest. apply rev_involutive. }
  unfold hb_path_of. rewrite Htrim.
  change (list_ascii_of_string ".value") with ("."%char :: list_ascii_of_string "value").
  rewrite split_dots_app by (intros c Hc; destruct (Hch c Hc) as (_ & H & _); exact H).
  rewrite split_dots_nodot by (intros c Hc; simpl in Hc; intuition subst; discriminate).
  cbn [rev app]. simpl forallb. rewrite Hok. reflexivity.
Qed.

Lemma hb_compile_value (id : string) :
  hb_segment_ok (list_ascii_of_string id) = true ->
  hb_compile ("{{" ++ id ++ ".value}}") = Some [HPath [id; "value"]].
Proof.
  intros Hok. unfold hb_compile.
  rewrite !list_ascii_of_string_app.
  set (ids := list_ascii_of_string id) in *.
  assert (Hch : forall c, In c ids -> c <> "}"%char /\ c <> "."%char /\ c <> " "%char)
    by (intros c; apply hb_ident_chars, Hok).
  change (list_ascii_of_string "{{") with ["{"%char; "{"%char].
  change (list_ascii_of_string ".value}}")
    with (list_ascii_of_string ".value" ++ ["}"%char; "}"%char])%list.
  cbn [app length]. cbn [hb_parse_fuel]. simpl Ascii.eqb. cbv iota. simpl andb. cbv iota.
  rewrite app_assoc.
  rewrite hb_read_mustache_app.
  2:{ intros c Hc. apply in_app_or in Hc as [Hc|Hc].
      - apply (Hch c Hc).
      - simpl in Hc. intuition subst; discriminate. }
  cbn [rev app]. rewrite hb_path_of_value by exact Hok.
  unfold ids. rewrite string_of_list_ascii_of_string.
  reflexivity.
Qed.

Lemma hb_escape_plain (cs : list ascii) :
  (forall c, In c cs -> ~ In c ["&"%char; "<"%char; ">"%char; "034"%char; "'"%char;
                                "`"%char; "="%char]) ->
  hb_escape_chars cs = string_of_list_ascii cs.
Proof.
  induction cs as [|c cs IH]; intros Hc; [reflexivity|].
  simpl. rewrite IH by (intros c' Hc'; apply Hc; right; exact Hc').
  specialize (Hc c (or_introl eq_refl)).
  destruct (Ascii.eqb_spec c "&"); [subst; exfalso; apply Hc; simpl; tauto|].
  destruct (Ascii.eqb_spec c "<"); [subst; exfalso; apply Hc; simpl; tauto|].
  destruct (Ascii.eqb_spec c ">"); [subst; exfalso; apply Hc; simpl; tauto|].
  destruct (Ascii.eqb_spec c "034"); [subst; exfalso; apply Hc; simpl; tauto|].
  destruct (Ascii.eqb_spec c "'"); [subst; exfalso; apply Hc; simpl; tauto|].
  destruct (Ascii.eqb_spec c "`"); [subst; exfalso; apply Hc; simpl; tauto|].
  destruct (Ascii.eqb_spec c "="); [subst; exfalso; apply Hc; simpl; tauto|].
  reflexivity.
Qed.

(** A parameter without [{], without a backslash and without a NUL
    character is passed to the contract unchanged, whatever the execution
    context holds. *)
Theorem hb_render_plain_text (ctx : ExecutionContext) (t : string) :
  (forall c, In c (list_ascii_of_string t) ->
     c <> "{"%char /\ c <> "\"%char /\ c <> "000"%char) ->
  hb_render ctx t = Some t.
Proof.
  intros Hc. unfold hb_render, hb_compile.
  rewrite hb_parse_text by (first [lia | exact Hc]).
  rewrite app_nil_r. unfold text_seg.
  destruct (rev (list_ascii_of_string t)) eqn:E.
  - apply (f_equal (@rev ascii)) in E. rewrite rev_involutive in E. simpl in E.
    rewrite <- (string_of_list_ascii_of_string t), E. reflexivity.
  - rewrite <- E, rev_involutive, string_of_list_ascii_of_string. reflexivity.
Qed.

Lemma hb_render_plain_text_witness :
  hb_render ∅ "0xA0b86991c6218b36c1d19D4a2e9Eb0cE3606eB48"
  = Some "0xA0b86991c6218b36c1d19D4a2e9Eb0cE3606eB48".
Proof.
  apply hb_render_plain_text. vm_compute.
  intros c Hc. repeat (destruct Hc as [<-|Hc]; [repeat split; discriminate|]). destruct Hc.
Defined.

(** A parameter [{{id.value}}] (an [id] made of letters, digits, [_], [$]
    and [-], not starting with a digit or [-], and not a keyword) renders
    the [value] of the context entry for [id] with Handlebars' HTML
    escaping: a string value without any of [& < > ' ` =] and the double
    quote is passed
    verbatim, an integer below [10^21] in magnitude in decimal, a boolean
    as [true]/[false]; a missing
    entry, or an entry without a value, gives [""]; and a string with one of
    those characters is altered (["a=b"] becomes ["a&#x3D;b"]). *)
Theorem hb_render_value_placeholder (ctx : ExecutionContext) (id : string) :
  hb_segment_ok (list_ascii_of_string id) = true ->
  hb_render ctx ("{{" ++ id ++ ".value}}")
    = Some (match ctx !! id with Some r => hb_render_any (value r) | None => "" end)
  /\ (forall r s, ctx !! id = Some r -> value r = Some (AStr s) ->
        (forall c, In c (list_ascii_of_string s) ->
           ~ In c ["&"%char; "<"%char; ">"%char; "034"%char; "'"%char; "`"%char; "="%char]) ->
        hb_render ctx ("{{" ++ id ++ ".value}}") = Some s)
  /\ (forall r z, ctx !! id = Some r -> value r = Some (ANum z) -> (Z.abs z < 10 ^ 21)%Z ->
        hb_render ctx ("{{" ++ id ++ ".value}}") = Some (pretty z))
  /\ (forall r b, ctx !! id = Some r -> value r = Some (ABool b) ->
        hb_render ctx ("{{" ++ id ++ ".value}}") = Some (if b then "true" else "false"))
  /\ (forall r, ctx !! id = Some r -> value r = None ->
        hb_render ctx ("{{" ++ id ++ ".value}}") = Some "")
  /\ (ctx !! id = None -> hb_render ctx ("{{" ++ id ++ ".value}}") = Some "")
  /\ (forall r, ctx !! id = Some r -> value r = Some (AStr "a=b") ->
        hb_render ctx ("{{" ++ id ++ ".value}}") = Some "a&#x3D;b").
Proof.
  intros Hok.
  assert (H0 : hb_render ctx ("{{" ++ id ++ ".value}}")
               = Some (match ctx !! id with Some r => hb_render_any (value r) | None => "" end)).
  { unfold hb_render. rewrite hb_compile_value by exact Hok. simpl.
    destruct (ctx !! id); reflexivity. }
  split; [exact H0|].
  repeat split; intros; rewrite H0; repeat match goal with H : _ = _ |- _ => rewrite H end;
    try reflexivity.
  simpl. f_equal. rewrite hb_escape_plain by assumption.
  apply string_of_list_ascii_of_string.
Qed.

Lemma hb_render_value_placeholder_witness :
  hb_render (<["a" := mkResult (Some true) (Some (AStr "0xabc")) (Some false)]> ∅) "{{a.value}}"
  = Some "0xabc".
Proof.
  apply (proj1 (proj2 (hb_render_value_placeholder
                         (<["a" := mkResult (Some true) (Some (AStr "0xabc")) (Some false)]> ∅) "a"
                         ltac:(vm_compute; reflexivity)))
           (mkResult (Some true) (Some (AStr "0xabc")) (Some false)) "0xabc");
    [vm_compute; reflexivity | reflexivity |].
  vm_compute. intros c Hc.
  repeat (destruct Hc as [<-|Hc]; [intros H; repeat (destruct H as [H|H]; [discriminate H|]); exact H|]).
  destruct Hc.
Defined.

(* ================================================================== *)
(** * Further properties of the checklist functions *)

Lemma checkUnique_complete (l : list Step) :
  forall (m : gmap string bool),
    (forall k v, m !! k = Some v -> v = true) ->
    NoDup (map sid l) ->
    (forall s, In s l -> is_proto_prop (sid s) = false /\ m !! sid s = None) ->
    exists m', checkUnique m l = Some m'
               /\ (forall k, is_Some (m' !! k) <-> is_Some (m !! k) \/ In k (map sid l)).
Proof.
  induction l as [|s l IH]; intros m Htrue Hnd Hs; simpl.
  - exists m. split; [reflexivity|]. intros k. tauto.
  - destruct (Hs s (or_introl eq_refl)) as [Hp Hm].
    unfold js_get. rewrite Hm, Hp.
    assert (Hne : sid s <> "__proto__").
    { intros E. rewrite E in Hp. discriminate. }
    rewrite js_set_not_proto by exact Hne.
    inversion Hnd as [|x l' Hx Hnd']; subst.
    destruct (IH (<[sid s := true]> m)) as (m' & Hc & Hdom).
    + intros k v Hk. rewrite lookup_insert in Hk. case_decide; [congruence | eauto].
    + exact Hnd'.
    + intros t Ht. destruct (Hs t (or_intror Ht)) as [Hpt Hnt]. split; [exact Hpt|].
      rewrite lookup_insert. case_decide as E; [|exact Hnt].
      exfalso. apply Hx. apply list_elem_of_In. rewrite E. apply in_map, Ht.
    + exists m'. split; [exact Hc|]. intros k. rewrite Hdom, lookup_insert.
      case_decide as E; subst; simpl; split; intros H.
      * right. left. reflexivity.
      * left. eexists; reflexivity.
      * destruct H as [H|H]; [left; exact H | right; right; exact H].
      * destruct H as [H|[H|H]]; [left; exact H | congruence | right; exact H].
Qed.

(** [checkStepIDs] accepts exactly the checklists whose step IDs are
    distinct and none of them a property name of [Object.prototype]
    (["constructor"], ["toString"], ["__proto__"], ...), and each of whose
    dependencies is the ID of a step or such a property name. *)
Theorem checkStepIDs_iff (cl : Checklist) :
  checkStepIDs cl = true
  <-> NoDup (map sid (steps cl))
      /\ (forall s, In s (steps cl) -> is_proto_prop (sid s) = false)
      /\ (forall s d, In s (steps cl) -> In d (deps s) ->
            In d (map sid (steps cl)) \/ is_proto_prop d = true).
Proof.
  split; [apply checkStepIDs_sound|].
  intros (Hnd & Hnp & Hdeps). unfold checkStepIDs.
  destruct (checkUnique_complete (steps cl) ∅) as (m' & Hc & Hdom).
  - intros k v Hk. rewrite lookup_empty in Hk. discriminate.
  - exact Hnd.
  - intros s Hs. split; [apply Hnp, Hs | apply lookup_empty].
  - rewrite Hc. apply forallb_forall. intros s Hs. apply forallb_forall. intros d Hd.
    unfold js_get. destruct (Hdeps s d Hs Hd) as [Hid|Hp].
    + destruct (m' !! d) eqn:E; [reflexivity|].
      assert (H : is_Some (m' !! d)) by (apply Hdom; right; exact Hid).
      rewrite E in H. destruct H as [? H]. discriminate.
    + destruct (m' !! d); [reflexivity|]. rewrite Hp. reflexivity.
Qed.

Lemma filter_all_false {A} (f : A -> bool) (l : list A) :
  (forall z, In z l -> f z = false) -> List.filter f l = [].
Proof.
  induction l as [|a l IH]; intros H; simpl; [reflexivity|].
  rewrite (H a (or_introl eq_refl)). apply IH. intros z Hz. apply H. right. exact Hz.
Qed.

Section InsertionSort.
Context {A : Type}.
Variable cmp : A -> A -> comparison.

Lemma insertStable_In (x y : A) (l : list A) :
  In y (insertStable cmp x l) <-> y = x \/ In y l.
Proof.
  induction l as [|z l IH]; simpl; [intuition congruence|].
  destruct (cmp z x); simpl; rewrite ?IH; intuition congruence.
Qed.

Lemma sortStable_In (y : A) (l : list A) :
  In y (sortStable cmp l) <-> In y l.
Proof.
  unfold sortStable.
  assert (H : forall acc, In y (fold_left (fun acc x => insertStable cmp x acc) l acc)
                          <-> In y acc \/ In y l).
  { induction l as [|x l IH]; intros acc; simpl; [tauto|].
    rewrite IH, insertStable_In. intuition congruence. }
  rewrite H. simpl. tauto.
Qed.

Variable key : A -> nat.
Variable P : A -> Prop.
Hypothesis Hcmp : forall a b, P a -> P b -> cmp a b = Nat.compare (key a) (key b).


Lemma insertStable_sorted (x : A) (l : list A) :
  P x -> List.Forall P l -> StronglySorted (key_le key) l ->
  StronglySorted (key_le key) (insertStable cmp x l).
Proof.
  induction l as [|y l IH]; intros Hx Hl Hs; simpl.
  - repeat constructor.
  - inversion Hl as [|? ? Hy Hl']; subst. inversion Hs as [|? ? Hs' Hyl]; subst.
    rewrite (Hcmp y x Hy Hx).
    destruct (Nat.compare_spec (key y) (key x)) as [E|E|E].
    + constructor; [apply IH; assumption|].
      apply List.Forall_forall. intros z Hz. apply insertStable_In in Hz as [->|Hz].
      * unfold key_le. lia.
      * rewrite List.Forall_forall in Hyl. apply Hyl, Hz.
    + constructor; [apply IH; assumption|].
      apply List.Forall_forall. intros z Hz. apply insertStable_In in Hz as [->|Hz].
      * unfold key_le. lia.
      * rewrite List.Forall_forall in Hyl. apply Hyl, Hz.
    + constructor; [constructor; assumption|].
      constructor; [unfold key_le; lia|].
      rewrite List.Forall_forall in Hyl |- *. intros z Hz. specialize (Hyl z Hz).
      unfold key_le in *. lia.
Qed.

Lemma insertStable_filter (n : nat) (x : A) (l : list A) :
  P x -> List.Forall P l -> StronglySorted (key_le key) l ->
  List.filter (fun a => Nat.eqb (key a) n) (insertStable cmp x l)
  = (List.filter (fun a => Nat.eqb (key a) n) l
     ++ (if Nat.eqb (key x) n then [x] else []))%list.
Proof.
  induction l as [|y l IH]; intros Hx Hl Hs.
  - simpl. destruct (Nat.eqb (key x) n); reflexivity.
  - inversion Hl as [|? ? Hy Hl']; subst. inversion Hs as [|? ? Hs' Hyl]; subst.
    cbn [insertStable]. rewrite (Hcmp y x Hy Hx).
    destruct (Nat.compare_spec (key y) (key x)) as [E|E|E].
    + cbn [List.filter]. rewrite IH by assumption. destruct (Nat.eqb (key y) n); reflexivity.
    + cbn [List.filter]. rewrite IH by assumption. destruct (Nat.eqb (key y) n); reflexivity.
    + assert (Hgt : forall z, In z (y :: l) -> key x < key z).
      { intros z [<-|Hz]; [lia|]. rewrite List.Forall_forall in Hyl.
        specialize (Hyl z Hz). unfold key_le in Hyl. lia. }
      assert (Hnil : List.filter (fun a => Nat.eqb (key a) n) (y :: l) = []
                     \/ key x <> n).
      { destruct (Nat.eqb_spec (key x) n) as [Ex|Ex]; [left|right; exact Ex].
        apply filter_all_false. intros z Hz. specialize (Hgt z Hz). apply Nat.eqb_neq. lia. }
      change (List.filter (fun a => Nat.eqb (key a) n) (x :: y :: l))
        with (if Nat.eqb (key x) n then x :: List.filter (fun a => Nat.eqb (key a) n) (y :: l)
              else List.filter (fun a => Nat.eqb (key a) n) (y :: l)).
      destruct (Nat.eqb_spec (key x) n) as [Ex|Ex].
      * destruct Hnil as [Hnil|Hnil]; [|congruence]. rewrite Hnil. reflexivity.
      * rewrite app_nil_r. reflexivity.
Qed.

Lemma sortStable_filter (n : nat) (l : list A) :
  List.Forall P l ->
  List.filter (fun a => Nat.eqb (key a) n) (sortStable cmp l)
  = List.filter (fun a => Nat.eqb (key a) n) l
  /\ StronglySorted (key_le key) (sortStable cmp l).
Proof.
  intros Hl. unfold sortStable.
  assert (H : forall acc, List.Forall P acc -> StronglySorted (key_le key) acc ->
            List.filter (fun a => Nat.eqb (key a) n)
              (fold_left (fun acc x => insertStable cmp x acc) l acc)
            = (List.filter (fun a => Nat.eqb (key a) n) acc
               ++ List.filter (fun a => Nat.eqb (key a) n) l)%list
            /\ StronglySorted (key_le key) (fold_left (fun acc x => insertStable cmp x acc) l acc)).
  { induction l as [|x l IH]; intros acc Hacc Hs; simpl.
    - rewrite app_nil_r. split; [reflexivity | exact Hs].
    - inversion Hl as [|? ? Hx Hl']; subst.
      assert (HP : List.Forall P (insertStable cmp x acc)).
      { apply List.Forall_forall. intros z Hz. apply insertStable_In in Hz as [->|Hz]; [exact Hx|].
        rewrite List.Forall_forall in Hacc. apply Hacc, Hz. }
      destruct (IH Hl' (insertStable cmp x acc) HP (insertStable_sorted x acc Hx Hacc Hs))
        as [H1 H2].
      split; [|exact H2]. rewrite H1, insertStable_filter by assumption.
      rewrite <- app_assoc. destruct (Nat.eqb (key x) n); reflexivity. }
  destruct (H [] (List.Forall_nil _) (SSorted_nil _)) as [H1 H2]. split; [exact H1 | exact H2].
Qed.
End InsertionSort.

Lemma insertStable_perm {A} (cmp : A -> A -> comparison) (x : A) (l : list A) :
  Permutation (insertStable cmp x l) (x :: l).
Proof.
  induction l as [|y l IH]; simpl; [reflexivity|].
  destruct (cmp y x); try reflexivity;
    (etransitivity; [apply perm_skip, IH | apply perm_swap]).
Qed.

Lemma sortStable_perm {A} (cmp : A -> A -> comparison) (l : list A) :
  Permutation (sortStable cmp l) l.
Proof.
  unfold sortStable.
  assert (H : forall acc, Permutation (fold_left (fun acc x => insertStable cmp x acc) l acc)
                                      (acc ++ l)%list).
  { induction l as [|x l IH]; intros acc; simpl; [rewrite app_nil_r; reflexivity|].
    rewrite IH. rewrite (insertStable_perm cmp x acc). simpl.
    rewrite <- Permutation_middle. reflexivity. }
  apply H.
Qed.

Lemma tdLookup_ext (td1 td2 : gmap string (list tdep)) (d : string) :
  td1 !! d = td2 !! d -> tdLookup td1 d = tdLookup td2 d.
Proof. intros H. unfold tdLookup, js_get. rewrite H. reflexivity. Qed.

Lemma tdStep_other (td : gmap string (list tdep)) (t : Step) (k : string) :
  k <> sid t -> tdStep td t !! k = td !! k.
Proof.
  intros Hk. unfold tdStep.
  assert (H : forall ds td1, td1 !! k = td !! k ->
            fold_left (fun td' dependency =>
                         js_set td' (sid t) (default [] (td' !! sid t) ++ tdLookup td' dependency)%list)
              ds td1 !! k = td !! k).
  { induction ds as [|d ds IH]; intros td1 H1; simpl; [exact H1|].
    apply IH. rewrite js_set_lookup_ne by exact Hk. exact H1. }
  apply H. apply js_set_lookup_ne, Hk.
Qed.

Lemma tdStep_self (td : gmap string (list tdep)) (t : Step) :
  sid t <> "__proto__" -> (forall d, In d (deps t) -> d <> sid t) ->
  tdStep td t !! sid t
    = Some (map TKey (deps t) ++ concat (map (tdLookup td) (deps t)))%list.
Proof.
  intros Hp Hd. unfold tdStep.
  assert (H : forall ds td1 acc,
            (forall d, In d ds -> d <> sid t) ->
            td1 !! sid t = Some acc ->
            (forall k, k <> sid t -> td1 !! k = td !! k) ->
            fold_left (fun td' dependency =>
                         js_set td' (sid t) (default [] (td' !! sid t) ++ tdLookup td' dependency)%list)
              ds td1 !! sid t = Some (acc ++ concat (map (tdLookup td) ds))%list).
  { induction ds as [|d ds IH]; intros td1 acc Hds H1 Hoth; simpl.
    - rewrite app_nil_r. exact H1.
    - rewrite H1. simpl.
      rewrite (tdLookup_ext td1 td d) by (apply Hoth, Hds; left; reflexivity).
      rewrite app_assoc. apply IH.
      + intros d' Hd'. apply Hds. right. exact Hd'.
      + apply js_set_lookup_eq, Hp.
      + intros k Hk. rewrite js_set_lookup_ne by exact Hk. apply Hoth, Hk. }
  apply H.
  - exact Hd.
  - apply js_set_lookup_eq, Hp.
  - intros k Hk. apply js_set_lookup_ne, Hk.
Qed.

Lemma td_fold_notin (l : list Step) (td : gmap string (list tdep)) (k : string) :
  ~ In k (map sid l) -> fold_left tdStep l td !! k = td !! k.
Proof.
  revert td. induction l as [|t l IH]; intros td Hk; simpl in *; [reflexivity|].
  rewrite IH by tauto. apply tdStep_other. intros E. apply Hk. left. congruence.
Qed.

Lemma StronglySorted_filter {A} (R : A -> A -> Prop) (f : A -> bool) (l : list A) :
  StronglySorted R l -> StronglySorted R (List.filter f l).
Proof.
  induction l as [|a l IH]; intros H; simpl; [constructor|].
  apply StronglySorted_inv in H as [Hl Ha].
  destruct (f a); [|apply IH, Hl].
  constructor; [apply IH, Hl|].
  rewrite List.Forall_forall in *. intros x Hx. apply filter_In in Hx. apply Ha, Hx.
Qed.

Lemma StronglySorted_after {A} (R : A -> A -> Prop) (P Q : list A) (t u : A) :
  StronglySorted R (P ++ t :: Q)%list -> In u Q -> R t u.
Proof.
  induction P as [|p P IH]; simpl; intros H Hu.
  - apply StronglySorted_inv in H as [_ H]. rewrite List.Forall_forall in H. apply H, Hu.
  - apply StronglySorted_inv in H as [H _]. apply IH; assumption.
Qed.

Lemma filter_filter_comm {A} (f g : A -> bool) (l : list A) :
  List.filter f (List.filter g l) = List.filter g (List.filter f l).
Proof.
  induction l as [|a l IH]; simpl; [reflexivity|].
  destruct (g a) eqn:Eg, (f a) eqn:Ef; simpl; rewrite ?Eg, ?Ef, IH; reflexivity.
Qed.

Lemma filter_sublist {A} (f : A -> bool) (l : list A) : List.filter f l `sublist_of` l.
Proof.
  induction l as [|a l IH]; simpl; [constructor|].
  destruct (f a); [apply sublist_skip | apply sublist_cons]; exact IH.
Qed.

Lemma proto_key_not_id (k : string) : is_proto_prop k = false -> k <> "__proto__".
Proof. intros H ->. discriminate. Qed.

Lemma clos_trans_first {A} (E : A -> A -> Prop) (a k : A) :
  clos_trans A E a k <-> E a k \/ exists b, E a b /\ clos_trans A E b k.
Proof.
  split.
  - intros H. apply clos_trans_t1n_iff in H. destruct H as [y H|y z H1 H2].
    + left. exact H.
    + right. exists y. split; [exact H1|]. apply clos_trans_t1n_iff, H2.
  - intros [H|(b & H1 & H2)]; [apply t_step, H|]. eapply t_trans; [apply t_step, H1|exact H2].
Qed.

Lemma clos_trans_last {A} (E : A -> A -> Prop) (a k : A) :
  clos_trans A E a k -> exists b, E b k.
Proof.
  intros H. apply clos_trans_tn1_iff in H. destruct H as [y H|y z H _]; eexists; exact H.
Qed.

(** The [completeSteps] loop of [nextSteps]. *)
Lemma completeSteps_lookup (l : list Step) (m : gmap string Step) :
  NoDup (map sid l) -> (forall t, In t l -> sid t <> "__proto__") ->
  (forall k, ~ In k (map sid l) ->
     fold_left (fun m step => if isStepComplete step then js_set m (sid step) step else m) l m !! k
     = m !! k)
  /\ (forall t, In t l ->
     fold_left (fun m step => if isStepComplete step then js_set m (sid step) step else m) l m !! sid t
     = if isStepComplete t then Some t else m !! sid t).
Proof.
  revert m. induction l as [|a l IH]; intros m Hnd Hp; simpl; [split; [reflexivity | intros t []]|].
  simpl in Hnd. apply NoDup_cons in Hnd as [Ha Hnd].
  assert (Hp' : forall t, In t l -> sid t <> "__proto__") by (intros t Ht; apply Hp; right; exact Ht).
  set (m' := if isStepComplete a then js_set m (sid a) a else m).
  destruct (IH m' Hnd Hp') as [IH1 IH2].
  assert (Hm' : forall k, k <> sid a -> m' !! k = m !! k).
  { intros k Hk. unfold m'. destruct (isStepComplete a); [apply js_set_lookup_ne, Hk|reflexivity]. }
  split.
  - intros k Hk. rewrite IH1 by tauto. apply Hm'. intros E. apply Hk. left. congruence.
  - intros t [->|Ht].
    + rewrite IH1 by (intros H; apply Ha, list_elem_of_In, H).
      unfold m'. destruct (isStepComplete t); [apply js_set_lookup_eq, Hp; left; reflexivity|reflexivity].
    + rewrite IH2 by exact Ht. destruct (isStepComplete t); [reflexivity|].
      apply Hm'. intros E. apply Ha, list_elem_of_In. rewrite <- E. apply in_map, Ht.
Qed.

Section NextStepsReady.
Variable cl : Checklist.
Hypothesis Hvalid : checkStepIDs cl = true.
Hypothesis Hacyc : acyclic (steps cl).
Hypothesis Hnoproto : forall s d, In s (steps cl) -> In d (deps s) -> is_proto_prop d = false.

Local Abbreviation L := (steps cl).
Local Abbreviation M := (calculateLevels (steps cl) 1 ∅).
Local Abbreviation lvl := (fun s => default 0 (calculateLevels (steps cl) 1 ∅ !! sid s)).

Lemma ready_ids_nodup : NoDup (map sid L).
Proof. apply (checkStepIDs_sound cl Hvalid). Qed.

Lemma ready_id_ok (s : Step) : In s L -> is_proto_prop (sid s) = false.
Proof. apply (checkStepIDs_sound cl Hvalid). Qed.

Lemma ready_dep_id (s : Step) (d : string) :
  In s L -> In d (deps s) -> exists u, In u L /\ sid u = d.
Proof.
  intros Hs Hd. destruct (proj2 (proj2 (checkStepIDs_sound cl Hvalid)) s d Hs Hd) as [H|H].
  - apply in_map_iff in H as (u & Hu & HuL). exists u. split; assumption.
  - rewrite (Hnoproto s d Hs Hd) in H. discriminate.
Qed.

Lemma ready_sid_inj (u t : Step) : In u L -> In t L -> sid u = sid t -> u = t.
Proof. apply NoDup_map_inj, ready_ids_nodup. Qed.

Lemma ready_levelled (s : Step) : In s L -> exists n, M !! sid s = Some n.
Proof.
  intros Hs. destruct (valid_fixpoint cl Hvalid) as (c & (_ & HR & _) & _).
  rewrite (acyclic_cycles_nil cl Hvalid Hacyc) in HR.
  destruct (M !! sid s) as [n|] eqn:E; [exists n; reflexivity|].
  exfalso. assert (Hin : In s (List.filter (unlevelled M) L)).
  { apply filter_In. split; [exact Hs|].
    apply (unlevelled_iff L (fun s Hs => ready_id_ok s Hs)); assumption. }
  rewrite <- HR in Hin. destruct Hin.
Qed.

Lemma ready_level_edge (s u : Step) :
  In s L -> In u L -> In (sid u) (deps s) -> lvl u < lvl s.
Proof.
  intros Hs Hu Hd. destruct (valid_fixpoint cl Hvalid) as (c & (_ & _ & _ & Hform & _) & _).
  destruct (ready_levelled s Hs) as [n Hn].
  destruct (Hform s n Hs Hn) as [Hf _].
  pose proof (list_max_le (map (fun d => default 0 (M !! d)) (deps s))
                (list_max (map (fun d => default 0 (M !! d)) (deps s)))) as [H _].
  specialize (H (le_n _)). rewrite List.Forall_forall in H.
  specialize (H _ (in_map _ _ _ Hd)). cbv beta in H. cbv beta. rewrite Hn. simpl. lia.
Qed.

Lemma ready_levelCompare (a b : Step) :
  In a L -> In b L -> levelCompare M a b = Nat.compare (lvl a) (lvl b).
Proof.
  intros Ha Hb. destruct (ready_levelled a Ha) as [na Hna], (ready_levelled b Hb) as [nb Hnb].
  unfold levelCompare. rewrite (js_get_own _ _ _ Hna), (js_get_own _ _ _ Hnb).
  cbv beta. rewrite Hna, Hnb. reflexivity.
Qed.

Lemma ready_sorted_nodup : NoDup (map sid (sortStable (levelCompare M) L)).
Proof.
  apply NoDup_ListNoDup. eapply Permutation_NoDup.
  - apply Permutation_map. symmetry. apply sortStable_perm.
  - apply NoDup_ListNoDup, ready_ids_nodup.
Qed.

Lemma ready_sorted (n : nat) :
  List.filter (fun a => Nat.eqb (lvl a) n) (sortStable (levelCompare M) L)
  = List.filter (fun a => Nat.eqb (lvl a) n) L
  /\ StronglySorted (key_le lvl) (sortStable (levelCompare M) L).
Proof.
  apply (sortStable_filter (levelCompare M) lvl (fun s => In s L) ready_levelCompare).
  apply List.Forall_forall. intros x Hx. exact Hx.
Qed.

Lemma ready_depEdge (t : Step) (b : string) :
  In t L -> depEdge L (sid t) b <-> In b (deps t).
Proof.
  intros Ht. split.
  - intros (s & Hs & Hst & Hb). rewrite (ready_sid_inj s t Hs Ht Hst) in Hb. exact Hb.
  - intros Hb. exists t. auto.
Qed.

Lemma ready_td_fold (Q P : list Step) (td : gmap string (list tdep)) :
  sortStable (levelCompare M) L = (P ++ Q)%list ->
  (forall t, In t P -> tdGood L td t) ->
  forall t, In t (sortStable (levelCompare M) L) -> tdGood L (fold_left tdStep Q td) t.
Proof.
  revert P td. induction Q as [|t Q IH]; intros P td Hsplit HP.
  - rewrite Hsplit, app_nil_r. exact HP.
  - simpl. apply (IH (P ++ [t])%list); [rewrite <- app_assoc; exact Hsplit|].
    pose proof ready_sorted_nodup as Hnd. rewrite Hsplit in Hnd.
    pose proof (proj2 (ready_sorted 0)) as Hss. rewrite Hsplit in Hss.
    assert (HtL : In t L).
    { apply (sortStable_In (levelCompare M)). rewrite Hsplit. apply in_or_app. right. left. reflexivity. }
    assert (HPL : forall u, In u P -> In u L).
    { intros u Hu. apply (sortStable_In (levelCompare M)). rewrite Hsplit. apply in_or_app. left. exact Hu. }
    assert (HtP : forall u, In u P -> sid u <> sid t).
    { intros u Hu E. rewrite map_app in Hnd. simpl in Hnd.
      apply NoDup_app in Hnd as (_ & Hdis & _).
      apply (Hdis (sid t)); apply list_elem_of_In; [rewrite <- E; apply in_map, Hu | left; reflexivity]. }
    assert (Hself : forall d, In d (deps t) -> d <> sid t).
    { intros d Hd E. apply (Hacyc (sid t)). apply t_step. exists t. split; [exact HtL|].
      split; [reflexivity|]. rewrite <- E. exact Hd. }
    intros u Hu. apply in_app_or in Hu as [Hu|[<-|[]]].
    + destruct (HP u Hu) as (l & Hl & Hl1 & Hl2). exists l. split; [|split; assumption].
      rewrite tdStep_other by (apply HtP, Hu). exact Hl.
    + assert (Hdep : forall d, In d (deps t) ->
                exists lu, td !! d = Some lu /\ tdLookup td d = lu
                  /\ (forall x, In x lu -> exists k, x = TKey k)
                  /\ (forall k, In (TKey k) lu <-> clos_trans string (depEdge L) d k)).
      { intros d Hd. destruct (ready_dep_id t d HtL Hd) as (u & HuL & <-).
        assert (HuP : In u P).
        { assert (Hu : In u (P ++ t :: Q)%list).
          { rewrite <- Hsplit. apply (sortStable_In (levelCompare M)). exact HuL. }
          apply in_app_or in Hu as [Hu|[Hu|Hu]]; [exact Hu| |].
          - subst u. exfalso. exact (Hself _ Hd eq_refl).
          - exfalso. pose proof (StronglySorted_after _ P Q t u Hss Hu) as Hle.
            unfold key_le in Hle. pose proof (ready_level_edge t u HtL HuL Hd). lia. }
        destruct (HP u HuP) as (lu & Hlu & H1 & H2). exists lu. split; [exact Hlu|].
        split; [unfold tdLookup; rewrite (js_get_own _ _ _ Hlu); reflexivity|]. split; assumption. }
      eexists. split.
      { apply tdStep_self; [apply proto_key_not_id, ready_id_ok, HtL | exact Hself]. }
      split.
      * intros x Hx. apply in_app_or in Hx as [Hx|Hx].
        -- apply in_map_iff in Hx as (k & <- & _). exists k. reflexivity.
        -- apply in_concat in Hx as (y & Hy & Hx). apply in_map_iff in Hy as (d & <- & Hd).
           destruct (Hdep d Hd) as (lu & _ & E & H1 & _). rewrite E in Hx. apply H1, Hx.
      * intros k. rewrite clos_trans_first, ready_depEdge by exact HtL. split.
        -- intros Hk. apply in_app_or in Hk as [Hk|Hk].
           ++ apply in_map_iff in Hk as (k' & E & Hk'). injection E as ->. left. exact Hk'.
           ++ apply in_concat in Hk as (y & Hy & Hk). apply in_map_iff in Hy as (d & <- & Hd).
              destruct (Hdep d Hd) as (lu & _ & E & _ & H2). rewrite E in Hk. right. exists d.
              split; [apply ready_depEdge; assumption | apply H2, Hk].
        -- intros [Hk|(d & Hd & Hk)]; apply in_or_app.
           ++ left. apply in_map, Hk.
           ++ right. apply ready_depEdge in Hd; [|exact HtL].
              destruct (Hdep d Hd) as (lu & _ & Hlk & _ & H2). apply in_concat.
              exists (tdLookup td d). split; [apply in_map, Hd|]. rewrite Hlk. apply H2, Hk.
Qed.

Lemma ready_td (t : Step) :
  In t L -> tdGood L (fold_left tdStep (sortStable (levelCompare M) L) ∅) t.
Proof.
  intros Ht. apply (ready_td_fold _ []); [reflexivity | intros u []|].
  apply (sortStable_In (levelCompare M)), Ht.
Qed.

Lemma ready_complete_lookup (t : Step) :
  In t L ->
  fold_left (fun m step => if isStepComplete step then js_set m (sid step) step else m)
    (sortStable (levelCompare M) L) ∅ !! sid t
  = if isStepComplete t then Some t else None.
Proof.
  intros Ht. destruct (completeSteps_lookup (sortStable (levelCompare M) L) ∅ ready_sorted_nodup)
    as [_ H2].
  { intros u Hu. apply proto_key_not_id, ready_id_ok, (sortStable_In (levelCompare M)), Hu. }
  rewrite H2 by (apply (sortStable_In (levelCompare M)), Ht).
  destruct (isStepComplete t); reflexivity.
Qed.

Lemma ready_depComplete (t : Step) :
  In t L ->
  depComplete (fold_left (fun m step => if isStepComplete step then js_set m (sid step) step else m)
    (sortStable (levelCompare M) L) ∅) (TKey (sid t)) = isStepComplete t.
Proof.
  intros Ht. unfold depComplete, tdepKey. pose proof (ready_complete_lookup t Ht) as H.
  destruct (isStepComplete t).
  - rewrite (js_get_own _ _ _ H). reflexivity.
  - rewrite (proj2 (js_get_undef_iff _ _) (conj H (ready_id_ok t Ht))). reflexivity.
Qed.
End NextStepsReady.

(** [nextSteps], on a checklist that passes [checkStepIDs], is acyclic and
    has no dependency named after an [Object.prototype] property, returns
    exactly the incomplete steps all of whose transitive dependencies are
    complete steps; it returns them ordered by level, and steps of one level
    keep their order in the checklist (the sort is stable). *)
Theorem nextSteps_ready (cl : Checklist) :
  checkStepIDs cl = true -> acyclic (steps cl) ->
  (forall s d, In s (steps cl) -> In d (deps s) -> is_proto_prop d = false) ->
  (forall s, In s (nextSteps cl) <->
     In s (steps cl) /\ isStepComplete s = false
     /\ forall k, clos_trans string (depEdge (steps cl)) (sid s) k ->
          exists t, In t (steps cl) /\ sid t = k /\ isStepComplete t = true)
  /\ StronglySorted (key_le (fun s => default 0 (calculateLevels (steps cl) 1 ∅ !! sid s)))
       (nextSteps cl)
  /\ forall n,
       List.filter (fun s => Nat.eqb (default 0 (calculateLevels (steps cl) 1 ∅ !! sid s)) n)
         (nextSteps cl)
       `sublist_of`
       List.filter (fun s => Nat.eqb (default 0 (calculateLevels (steps cl) 1 ∅ !! sid s)) n)
         (steps cl).
Proof.
  intros Hvalid Hacyc Hnp. unfold nextSteps. cbv zeta.
  set (M := calculateLevels (steps cl) 1 ∅).
  set (sorted := sortStable (levelCompare M) (steps cl)).
  set (cs := fold_left (fun m step => if isStepComplete step then js_set m (sid step) step else m)
               sorted ∅).
  set (td := fold_left tdStep sorted ∅).
  set (ready := fun step => forallb (depComplete cs) (default [] (td !! sid step))).
  set (lvl := fun s => default 0 (M !! sid s)).
  assert (Hreach : forall s k, In s (steps cl) ->
            clos_trans string (depEdge (steps cl)) (sid s) k ->
            exists u, In u (steps cl) /\ sid u = k).
  { intros s k Hs Hk. destruct (clos_trans_last _ _ _ Hk) as (b & s' & Hs' & _ & Hd).
    exact (ready_dep_id cl Hvalid Hnp s' k Hs' Hd). }
  split; [|split].
  - intros s. rewrite !filter_In. unfold sorted. rewrite sortStable_In. split.
    + intros ((Hs & Hc) & Hf). split; [exact Hs|]. split; [destruct (isStepComplete s); [discriminate|reflexivity]|].
      destruct (ready_td cl Hvalid Hacyc Hnp s Hs) as (l & Hl & _ & Hl2).
      unfold ready in Hf. change (td !! sid s = Some l) in Hl. rewrite Hl in Hf. simpl in Hf. rewrite forallb_forall in Hf.
      intros k Hk. destruct (Hreach s k Hs Hk) as (u & Hu & <-). exists u. split; [exact Hu|].
      split; [reflexivity|]. rewrite <- (ready_depComplete cl Hvalid u Hu). apply Hf, Hl2, Hk.
    + intros (Hs & Hc & Hk). split; [split; [exact Hs | rewrite Hc; reflexivity]|].
      destruct (ready_td cl Hvalid Hacyc Hnp s Hs) as (l & Hl & Hl1 & Hl2).
      unfold ready. change (td !! sid s = Some l) in Hl. rewrite Hl. simpl. apply forallb_forall. intros x Hx.
      destruct (Hl1 x Hx) as (k & ->). apply Hl2 in Hx.
      destruct (Hk k Hx) as (t & Ht & <- & Htc).
      pose proof (ready_depComplete cl Hvalid t Ht) as E.
      change (depComplete cs (TKey (sid t)) = isStepComplete t) in E. rewrite E. exact Htc.
  - apply StronglySorted_filter, StronglySorted_filter.
    exact (proj2 (ready_sorted cl Hvalid Hacyc 0)).
  - intros n. fold lvl.
    rewrite filter_filter_comm, (filter_filter_comm (fun s => Nat.eqb (lvl s) n)).
    pose proof (proj1 (ready_sorted cl Hvalid Hacyc n)) as E.
    change (List.filter (fun a => Nat.eqb (lvl a) n) sorted
            = List.filter (fun a => Nat.eqb (lvl a) n) (steps cl)) in E. rewrite E.
    etransitivity; [apply filter_sublist|]. apply filter_sublist.
Qed.

Lemma nextSteps_ready_witness :
  checkStepIDs (mkList (chain3 (Some (AStr "done")) None None)) = true
  /\ acyclic (steps (mkList (chain3 (Some (AStr "done")) None None)))
  /\ (forall s d, In s (steps (mkList (chain3 (Some (AStr "done")) None None))) ->
        In d (deps s) -> is_proto_prop d = false)
  /\ (forall s, In s (nextSteps (mkList (chain3 (Some (AStr "done")) None None))) <->
        In s (steps (mkList (chain3 (Some (AStr "done")) None None)))
        /\ isStepComplete s = false
        /\ forall k, clos_trans string
                       (depEdge (steps (mkList (chain3 (Some (AStr "done")) None None)))) (sid s) k ->
             exists t, In t (steps (mkList (chain3 (Some (AStr "done")) None None)))
                       /\ sid t = k /\ isStepComplete t = true).
Proof.
  assert (H1 : checkStepIDs (mkList (chain3 (Some (AStr "done")) None None)) = true)
    by reflexivity.
  assert (H2 : acyclic (steps (mkList (chain3 (Some (AStr "done")) None None))))
    by exact (cycles_nil_acyclic _ H1 eq_refl).
  assert (H3 : forall s d, In s (steps (mkList (chain3 (Some (AStr "done")) None None))) ->
                 In d (deps s) -> is_proto_prop d = false).
  { intros s d Hs Hd. simpl in Hs.
    destruct Hs as [<-|[<-|[<-|[]]]]; simpl in Hd; (destruct Hd as [<-|[]] || destruct Hd); reflexivity. }
  split; [exact H1|]. split; [exact H2|]. split; [exact H3|].
  exact (proj1 (nextSteps_ready _ H1 H2 H3)).
Defined.

Lemma td_fold_self (P Q : list Step) (t : Step) (td : gmap string (list tdep)) :
  ~ In (sid t) (map sid Q) -> sid t <> "__proto__" -> (forall d, In d (deps t) -> d <> sid t) ->
  exists td', fold_left tdStep (P ++ t :: Q)%list td !! sid t
    = Some (map TKey (deps t) ++ concat (map (tdLookup td') (deps t)))%list.
Proof.
  intros HQ Hp Hd. rewrite fold_left_app. simpl. rewrite td_fold_notin by exact HQ.
  eexists. apply tdStep_self; assumption.
Qed.

(** [nextSteps] only returns incomplete steps of the checklist; on a
    checklist that passes [checkStepIDs], cyclic or not, it returns every
    incomplete step that has no dependencies. *)
Theorem nextSteps_roots (cl : Checklist) :
  (forall s, In s (nextSteps cl) -> In s (steps cl) /\ isStepComplete s = false)
  /\ (checkStepIDs cl = true ->
      forall s, In s (steps cl) -> isStepComplete s = false -> deps s = [] ->
        In s (nextSteps cl)).
Proof.
  unfold nextSteps. cbv zeta.
  set (sorted := sortStable (levelCompare (calculateLevels (steps cl) 1 ∅)) (steps cl)).
  split.
  - intros s Hs. apply filter_In in Hs as [Hs _]. apply filter_In in Hs as [Hs Hc].
    split; [apply (sortStable_In (levelCompare (calculateLevels (steps cl) 1 ∅)) s (steps cl)), Hs|].
    destruct (isStepComplete s); [discriminate|reflexivity].
  - intros Hvalid s Hs Hc Hd.
    destruct (checkStepIDs_sound cl Hvalid) as (Hnd & Hnp & _).
    assert (Hss : In s sorted) by (apply (sortStable_In (levelCompare (calculateLevels (steps cl) 1 ∅)) s (steps cl)), Hs).
    assert (Hnd' : NoDup (map sid sorted)).
    { apply NoDup_ListNoDup. eapply Permutation_NoDup.
      - apply Permutation_map. symmetry. apply sortStable_perm.
      - apply NoDup_ListNoDup, Hnd. }
    apply filter_In. split; [apply filter_In; split; [exact Hss | rewrite Hc; reflexivity]|].
    apply in_split in Hss as (P & Q & HPQ). rewrite HPQ in Hnd'. rewrite HPQ.
    rewrite map_app in Hnd'. simpl in Hnd'. apply NoDup_app in Hnd' as (_ & _ & Hnd').
    apply NoDup_cons in Hnd' as [HQ _].
    destruct (td_fold_self P Q s ∅) as (td' & ->).
    + intros H. apply HQ, list_elem_of_In, H.
    + apply proto_key_not_id, Hnp, Hs.
    + rewrite Hd. intros d [].
    + rewrite Hd. reflexivity.
Qed.

Lemma nextSteps_roots_witness :
  checkStepIDs (mkList graph7) = true
  /\ In (manualStep "a" [] None) (nextSteps (mkList graph7))
  /\ cycles graph7 <> [].
Proof.
  split; [reflexivity|]. split; [|vm_compute; discriminate].
  apply (proj2 (nextSteps_roots (mkList graph7)) eq_refl); [left; reflexivity | reflexivity | reflexivity].
Defined.

Lemma walk_repeat_reach (E : string -> string -> Prop) (x : string) (p : list string) :
  walk E x p -> ~ NoDup (x :: p) ->
  exists z, clos_refl_trans string E x z /\ clos_trans string E z z.
Proof.
  revert x. induction p as [|y p IH]; intros x Hw Hnd.
  - exfalso. apply Hnd. constructor; [intros H; inversion H | constructor].
  - destruct (in_dec string_dec x (y :: p)) as [Hin|Hin].
    + exists x. split; [apply rt_refl|]. eapply walk_reaches; eassumption.
    + destruct Hw as [Hxy Hw]. destruct (IH y Hw) as (z & Hyz & Hz).
      * intros Hnd'. apply Hnd. constructor; [|exact Hnd'].
        intros H. apply Hin. apply list_elem_of_In. exact H.
      * exists z. split; [|exact Hz]. eapply rt_trans; [apply rt_step, Hxy | exact Hyz].
Qed.

(** In a finite set of nodes each with a successor in the set, every node
    of the set reaches a cycle. *)
Lemma closed_set_cycle_from (E : string -> string -> Prop) (P : list string) (x : string) :
  In x P -> (forall x, In x P -> exists y, In y P /\ E x y) ->
  exists z, clos_refl_trans string E x z /\ clos_trans string E z z.
Proof.
  intros Hx Hclosed.
  destruct (walk_build E P Hclosed (length P) x Hx) as (p & Hlen & Hin & Hw).
  apply (walk_repeat_reach E x p Hw). intros Hnd.
  apply NoDup_ListNoDup in Hnd.
  assert (Hincl : incl (x :: p) P).
  { intros z [<-|Hz]; [exact Hx | apply Hin; exact Hz]. }
  pose proof (NoDup_incl_length Hnd Hincl) as Hle. simpl in Hle. lia.
Qed.

Lemma rt_eq_or_t {A} (E : A -> A -> Prop) (a b : A) :
  clos_refl_trans A E a b -> a = b \/ clos_trans A E a b.
Proof.
  intros H. induction H as [x y H|x|x y z _ [<-|H1] _ [<-|H2]]; auto.
  - right. apply t_step, H.
  - right. eapply t_trans; eassumption.
Qed.

Section CycleReach.
Variable cl : Checklist.
Hypothesis Hvalid : checkStepIDs cl = true.

(** Every step left without a level has a dependency also left without one. *)
Lemma cycles_closed (x : string) :
  In x (map sid (cycles (steps cl))) ->
  exists y, In y (map sid (cycles (steps cl))) /\ depEdge (steps cl) x y.
Proof.
  destruct (checkStepIDs_sound cl Hvalid) as (Hnd & Hnp & Hdeps).
  destruct (valid_fixpoint cl Hvalid) as (c & (_ & HR & Hkeys & _) & Hnl).
  set (M := calculateLevels (steps cl) 1 ∅) in *.
  set (R := cycles (steps cl)) in *.
  assert (Hpos : forall k n, M !! k = Some n -> 1 <= n).
  { intros k n Hk. apply Hkeys in Hk. lia. }
  intros Hx. apply in_map_iff in Hx as (s & <- & HsR).
  pose proof HsR as Hs0. rewrite HR in Hs0. apply filter_In in Hs0 as [Hs0 Hu].
  assert (Hb : forallb (levelTruthy M) (deps s) = false).
  { destruct (forallb (levelTruthy M) (deps s)) eqn:E; [|reflexivity].
    exfalso. assert (Hin : In s (nextLevel R M)).
    { apply filter_In. split; [exact HsR|]. rewrite Hu, E. reflexivity. }
    rewrite Hnl in Hin. destruct Hin. }
  destruct (forallb_false_exists _ _ Hb) as (d & Hd & Hdf).
  destruct (Hdeps s d Hs0 Hd) as [Hid|Hp].
  - apply in_map_iff in Hid as (t & Ht & Ht0).
    exists (sid t). split.
    + apply in_map. rewrite HR. apply filter_In. split; [exact Ht0|].
      apply (unlevelled_iff (steps cl) Hnp); [exact Ht0|]. rewrite Ht.
      destruct (M !! d) eqn:E; [|reflexivity].
      assert (levelTruthy M d = true)
        by (apply levelTruthy_iff; [exact Hpos | left; rewrite E; eexists; reflexivity]).
      congruence.
    + exists s. split; [exact Hs0|]. split; [reflexivity|]. rewrite Ht. exact Hd.
  - assert (levelTruthy M d = true) by (apply levelTruthy_iff; [exact Hpos | right; exact Hp]).
    congruence.
Qed.

(** Along an edge out of a levelled step the level drops, or the edge
    leaves the steps. *)
Lemma levelled_edge (x y : string) (n : nat) :
  calculateLevels (steps cl) 1 ∅ !! x = Some n -> depEdge (steps cl) x y ->
  (exists m, calculateLevels (steps cl) 1 ∅ !! y = Some m /\ m < n)
  \/ ~ In y (map sid (steps cl)).
Proof.
  destruct (valid_fixpoint cl Hvalid) as (c & (_ & _ & _ & Hform & _) & _).
  intros Hx (s & Hs & <- & Hy).
  destruct (Hform s n Hs Hx) as [Hf Hsome].
  destruct (in_dec string_dec y (map sid (steps cl))) as [Hid|Hid]; [|right; exact Hid].
  left. destruct (Hsome y Hy Hid) as [m Hm]. exists m. split; [exact Hm|].
  pose proof (list_max_le (map (fun d => default 0 (calculateLevels (steps cl) 1 ∅ !! d)) (deps s))
                (list_max (map (fun d => default 0 (calculateLevels (steps cl) 1 ∅ !! d)) (deps s))))
    as [H _].
  specialize (H (le_n _)). rewrite List.Forall_forall in H.
  specialize (H _ (in_map _ _ _ Hy)). cbv beta in H. rewrite Hm in H. simpl in H. lia.
Qed.

Lemma levelled_reach (a b : string) (n : nat) :
  calculateLevels (steps cl) 1 ∅ !! a = Some n -> clos_trans string (depEdge (steps cl)) a b ->
  (exists m, calculateLevels (steps cl) 1 ∅ !! b = Some m /\ m < n)
  \/ ~ In b (map sid (steps cl)).
Proof.
  intros Ha Hab. apply clos_trans_tn1_iff in Hab.
  induction Hab as [b Hab|b z Hbz Hab IH].
  - exact (levelled_edge a b n Ha Hab).
  - destruct IH as [(m & Hm & Hmn)|Hb].
    + destruct (levelled_edge b z m Hm Hbz) as [(m' & Hm' & Hlt)|Hz]; [left|right; exact Hz].
      exists m'. split; [exact Hm'|lia].
    + exfalso. apply Hb. destruct Hbz as (s & Hs & <- & _). apply in_map, Hs.
Qed.
End CycleReach.

(** [cycles], on a checklist that passes [checkStepIDs], returns exactly
    the steps from which a dependency cycle is reachable: the steps on a
    cycle and the steps that depend, directly or transitively, on one. *)
Theorem cycles_reach (cl : Checklist) :
  checkStepIDs cl = true ->
  forall s, In s (cycles (steps cl)) <->
    In s (steps cl)
    /\ exists a, clos_refl_trans string (depEdge (steps cl)) (sid s) a
                 /\ clos_trans string (depEdge (steps cl)) a a.
Proof.
  intros Hvalid s. destruct (checkStepIDs_sound cl Hvalid) as (Hnd & Hnp & Hdeps). split.
  - intros Hs. split; [apply filter_In in Hs; apply Hs|].
    apply (closed_set_cycle_from _ (map sid (cycles (steps cl)))).
    + apply in_map, Hs.
    + apply cycles_closed, Hvalid.
  - intros (Hs & a & Hsa & Ha). unfold cycles. apply filter_In. split; [exact Hs|].
    apply (unlevelled_iff (steps cl) Hnp _ s Hs).
    destruct (calculateLevels (steps cl) 1 ∅ !! sid s) as [n|] eqn:En; [exfalso|reflexivity].
    assert (HaId : In a (map sid (steps cl))).
    { apply clos_trans_first in Ha as [(t & Ht & <- & _)|(b & (t & Ht & <- & _) & _)];
        apply in_map, Ht. }
    assert (Hm : exists m, calculateLevels (steps cl) 1 ∅ !! a = Some m /\ m <= n).
    { destruct (rt_eq_or_t _ _ _ Hsa) as [<-|Hsa'].
      - exists n. split; [exact En | lia].
      - destruct (levelled_reach cl Hvalid _ _ n En Hsa') as [(m & Hm & Hlt)|Hno];
          [exists m; split; [exact Hm|lia] | contradiction]. }
    destruct Hm as (m & Hm & _).
    destruct (levelled_reach cl Hvalid a a m Hm Ha) as [(m' & Hm' & Hlt)|Hno]; [|contradiction].
    rewrite Hm in Hm'. injection Hm' as ->. lia.
Qed.

Lemma cycles_reach_witness :
  checkStepIDs (mkList graph7) = true
  /\ (In (manualStep "c" ["b"] None) (cycles (steps (mkList graph7))) <->
      In (manualStep "c" ["b"] None) (steps (mkList graph7))
      /\ exists a, clos_refl_trans string (depEdge (steps (mkList graph7))) "c" a
                   /\ clos_trans string (depEdge (steps (mkList graph7))) a a).
Proof. split; [reflexivity|]. exact (cycles_reach (mkList graph7) eq_refl _). Defined.

Lemma list_max_attained (l : list nat) : 0 < list_max l -> In (list_max l) l.
Proof.
  induction l as [|a l IH]; simpl; [lia|]. intros H.
  destruct (Nat.max_spec a (list_max l)) as [(Hlt & ->)|(Hle & ->)].
  - right. apply IH. lia.
  - left. reflexivity.
Qed.

Section LevelRange.
Variable cl : Checklist.
Hypothesis Hvalid : checkStepIDs cl = true.

Lemma level_key (k : string) (n : nat) :
  calculateLevels (steps cl) 1 ∅ !! k = Some n -> In k (map sid (steps cl)) /\ 1 <= n.
Proof.
  destruct (valid_fixpoint cl Hvalid) as (c & (_ & _ & Hkeys & _) & _).
  intros Hk. apply Hkeys in Hk. split; [apply Hk | lia].
Qed.

Lemma level_contiguous (n : nat) :
  forall k m, calculateLevels (steps cl) 1 ∅ !! k = Some n -> 1 <= m <= n ->
  exists k', calculateLevels (steps cl) 1 ∅ !! k' = Some m.
Proof.
  destruct (valid_fixpoint cl Hvalid) as (c & (_ & _ & _ & Hform & _) & _).
  induction n as [|n IH]; intros k m Hk Hm; [lia|].
  destruct (Nat.eq_dec m (S n)) as [->|Hne]; [exists k; exact Hk|].
  destruct (level_key k (S n) Hk) as [Hid _]. apply in_map_iff in Hid as (s & <- & Hs).
  destruct (Hform s (S n) Hs Hk) as [Hf _]. injection Hf as Hf.
  assert (Hin : In n (map (fun d => default 0 (calculateLevels (steps cl) 1 ∅ !! d)) (deps s))).
  { rewrite Hf. apply list_max_attained. lia. }
  apply in_map_iff in Hin as (d & Hd & _).
  destruct (calculateLevels (steps cl) 1 ∅ !! d) as [n'|] eqn:E; simpl in Hd; [subst n'|lia].
  apply (IH d m E). lia.
Qed.

Lemma level_distinct_keys (n : nat) :
  (exists k, calculateLevels (steps cl) 1 ∅ !! k = Some n) ->
  forall j, j <= n ->
  exists l, length l = j /\ NoDup l
    /\ forall x, In x l -> In x (map sid (steps cl))
         /\ exists m, calculateLevels (steps cl) 1 ∅ !! x = Some m /\ 1 <= m <= j.
Proof.
  intros (k & Hk) j. induction j as [|j IH]; intros Hj.
  - exists []. split; [reflexivity|]. split; [constructor|]. intros x [].
  - destruct (IH ltac:(lia)) as (l & Hlen & Hnd & Hl).
    destruct (level_contiguous n k (S j) Hk ltac:(pose proof (level_key k n Hk); lia))
      as (k' & Hk').
    exists (k' :: l). split; [simpl; congruence|]. split.
    + constructor; [|exact Hnd]. intros Hin. apply list_elem_of_In in Hin.
      destruct (Hl k' Hin) as (_ & m & Hm & Hmj). rewrite Hk' in Hm. injection Hm as <-. lia.
    + intros x [<-|Hx].
      * split; [apply (level_key _ _ Hk')|]. exists (S j). split; [exact Hk'|lia].
      * destruct (Hl x Hx) as (Hid & m & Hm & Hmj). split; [exact Hid|].
        exists m. split; [exact Hm|lia].
Qed.
End LevelRange.

(** [calculateLevels], on a checklist that passes [checkStepIDs] (cyclic or
    not), gives levels to step IDs only; every level lies between 1 and the
    number of steps, and the levels used have no gaps: a step of level [n]
    means every level from 1 to [n] is used. *)
Theorem calculateLevels_range (cl : Checklist) :
  checkStepIDs cl = true ->
  forall k n, calculateLevels (steps cl) 1 ∅ !! k = Some n ->
    In k (map sid (steps cl))
    /\ 1 <= n <= length (steps cl)
    /\ forall m, 1 <= m <= n -> exists k', calculateLevels (steps cl) 1 ∅ !! k' = Some m.
Proof.
  intros Hvalid k n Hk. destruct (level_key cl Hvalid k n Hk) as [Hid Hn].
  split; [exact Hid|]. split; [split; [exact Hn|]|].
  - destruct (level_distinct_keys cl Hvalid n (ex_intro _ k Hk) n (le_n n)) as (l & Hlen & Hnd & Hl).
    apply NoDup_ListNoDup in Hnd.
    assert (Hincl : incl l (map sid (steps cl))) by (intros x Hx; apply (Hl x Hx)).
    pose proof (NoDup_incl_length Hnd Hincl) as Hle. rewrite length_map in Hle. lia.
  - intros m Hm. exact (level_contiguous cl Hvalid n k m Hk Hm).
Qed.

Lemma calculateLevels_range_witness :
  checkStepIDs (mkList graph7) = true
  /\ calculateLevels (steps (mkList graph7)) 1 ∅ !! "c" = Some 3
  /\ 1 <= 3 <= length (steps (mkList graph7)).
Proof.
  assert (H1 : checkStepIDs (mkList graph7) = true) by reflexivity.
  assert (H2 : calculateLevels (steps (mkList graph7)) 1 ∅ !! "c" = Some 3)
    by (vm_compute; reflexivity).
  split; [exact H1|]. split; [exact H2|].
  exact (proj1 (proj2 (calculateLevels_range (mkList graph7) H1 "c" 3 H2))).
Defined.
